(** * amqp-cacoon: the message batching manager

    A shallow embedding of [src/helpers/message_batching_manager.ts] and the
    properties its specification states about it.

    JavaScript arrays are objects with identity: the manager's field
    [unackedMessageList] holds a reference, [push] mutates the referenced
    array in place, and [resetMessages] stores a reference to a new array.
    The embedding keeps a heap of arrays for that reason.  [number] values
    are integers here (byte lengths and their sums stay far below 2^53, where
    JavaScript's doubles are exact).  An [async] function is split at its one
    suspension point: the part that runs when it is called, and the part
    that runs when the awaited promise settles. *)

From Stdlib Require Import ZArith List Lia Bool String.
From stdpp Require Import base list.
Import ListNotations.

Local Open Scope Z_scope.

(** ** Data *)

(** Modelled from the spec: the type [ChannelWrapper] is declared in
    [src/index.ts], which is not among the sources.  It is the sink of the
    specification, with [ack(message)] and [nack(message, requeue?)]; a
    channel is known here by its identity, and the calls it receives are
    recorded in the world (see [SinkCall]).  Its calls are taken not to
    throw: what the sink does on failure is its own concern. *)
Abbreviation ChannelWrapper := nat (only parsing).

(** Modelled from the spec: the type [ConsumeMessage] is declared in
    [src/index.ts], which is not among the sources.  A message carries a
    byte payload, [content], of which the manager reads [byteLength], and
    the token the broker acknowledges it by. *)
Record ConsumeMessage := {
  deliveryTag : nat;
  content : list Byte.byte;
}.

(** [Buffer.byteLength] *)
Definition byteLength (b : list Byte.byte) : Z := Z.of_nat (length b).

Abbreviation Logger := nat (only parsing).

Record Providers := { providers_logger : option Logger }.

(** [IMessageBatchingManagerConfig]; an optional field is an [option]. *)
Record IMessageBatchingManagerConfig := {
  providers : Providers;
  maxSizeBytes : option Z;
  maxTimeMs : option Z;
  skipNackOnFail : option bool;
}.

(** JavaScript truthiness of an optional number and of an optional boolean. *)
Definition truthy (n : option Z) : bool :=
  match n with Some v => negb (v =? 0) | None => false end.

Definition truthy_bool (b : option bool) : bool :=
  match b with Some v => v | None => false end.

(** [a >= b] where [b] may be [undefined] (the comparison is then false). *)
Definition geq (a : Z) (b : option Z) : bool :=
  match b with Some v => v <=? a | None => false end.

(** References to arrays and timer handles. *)
Abbreviation ArrayRef := nat (only parsing).
Abbreviation TimerId := nat (only parsing).

(** What a handler may throw or reject with. *)
Inductive Exn := Error (code : nat).

(** What the handler passed to the manager does when it is called, up to the
    point where it hands back its promise.  The handler is the caller's code;
    the script lists the calls it makes on what it was given: it returns its
    promise, it throws, it calls [ackAll] or [nackAll] of the batch, or it
    calls [handleMessageBuffering] on the manager ([HBuffer msg h k]: with
    message [msg] and handler [h], then goes on as [k]).  A handler is taken
    to leave the array of the batch as it is (the batch of the specification
    is immutable).  What a handler does after its first suspension is not
    part of the script: its promise settles in a later turn of the event
    loop. *)
Inductive Handler :=
| HReturn
| HThrow (e : Exn)
| HAckAll (k : Handler)
| HNackAll (requeue : option bool) (k : Handler)
| HBuffer (msg : ConsumeMessage) (h : Handler) (k : Handler).

(** The fields of a [MessageBatchingManager] instance. *)
Record MessageBatchingManager := {
  unackedMessageList : ArrayRef;
  bufferSize : Z;
  timerHandle : option TimerId;
  amqpChannel : option ChannelWrapper;
  logger : option Logger;
  config : IMessageBatchingManagerConfig;
}.

(** A call received by the channel. *)
Inductive SinkCall :=
| Ack (channel : ChannelWrapper) (msg : ConsumeMessage)
| Nack (channel : ChannelWrapper) (msg : ConsumeMessage) (requeue : option bool).

(** A pending [setTimeout]: the delay and the handler its callback captured. *)
Record Timeout := {
  timeout_ms : Z;
  timeout_handler : Handler;
}.

(** The variables of [sendBufferedMessages] that are live across its
    [await]. *)
Record Activation := {
  act_channel : ChannelWrapper;
  act_list : ArrayRef;
}.

(** One call of the handler, as a record of what it was given: the channel,
    [totalSizeInBytes], the array [messages] refers to and the elements that
    array had at the call.  The record is bookkeeping of the embedding; the
    program does not read it. *)
Record Invocation := {
  inv_channel : ChannelWrapper;
  inv_totalSizeInBytes : Z;
  inv_ref : ArrayRef;
  inv_messages : list ConsumeMessage;
}.

(** Everything that changes while the program runs: the arrays, the fields
    of the manager, the callbacks [setTimeout] has pending, what the channel
    and the logger received, the calls of the handler, the activations of
    [sendBufferedMessages] waiting for a handler's promise, and the
    rejections nobody handled. *)
Record World := {
  heap : list (list ConsumeMessage);
  this : MessageBatchingManager;
  timers : list (TimerId * Timeout);
  nextTimer : TimerId;
  sink : list SinkCall;
  traces : list string;
  invocations : list Invocation;
  awaiting : list Activation;
  unhandled : list Exn;
}.

(** ** Field updates *)

Definition with_heap (f : list (list ConsumeMessage) -> list (list ConsumeMessage))
    (w : World) : World :=
  {| heap := f (heap w); this := this w; timers := timers w;
     nextTimer := nextTimer w; sink := sink w; traces := traces w;
     invocations := invocations w; awaiting := awaiting w;
     unhandled := unhandled w |}.

Definition with_this (f : MessageBatchingManager -> MessageBatchingManager)
    (w : World) : World :=
  {| heap := heap w; this := f (this w); timers := timers w;
     nextTimer := nextTimer w; sink := sink w; traces := traces w;
     invocations := invocations w; awaiting := awaiting w;
     unhandled := unhandled w |}.

Definition with_timers (f : list (TimerId * Timeout) -> list (TimerId * Timeout))
    (w : World) : World :=
  {| heap := heap w; this := this w; timers := f (timers w);
     nextTimer := nextTimer w; sink := sink w; traces := traces w;
     invocations := invocations w; awaiting := awaiting w;
     unhandled := unhandled w |}.

Definition with_nextTimer (n : TimerId) (w : World) : World :=
  {| heap := heap w; this := this w; timers := timers w;
     nextTimer := n; sink := sink w; traces := traces w;
     invocations := invocations w; awaiting := awaiting w;
     unhandled := unhandled w |}.

Definition with_sink (f : list SinkCall -> list SinkCall) (w : World) : World :=
  {| heap := heap w; this := this w; timers := timers w;
     nextTimer := nextTimer w; sink := f (sink w); traces := traces w;
     invocations := invocations w; awaiting := awaiting w;
     unhandled := unhandled w |}.

Definition with_traces (f : list string -> list string) (w : World) : World :=
  {| heap := heap w; this := this w; timers := timers w;
     nextTimer := nextTimer w; sink := sink w; traces := f (traces w);
     invocations := invocations w; awaiting := awaiting w;
     unhandled := unhandled w |}.

Definition with_invocations (f : list Invocation -> list Invocation)
    (w : World) : World :=
  {| heap := heap w; this := this w; timers := timers w;
     nextTimer := nextTimer w; sink := sink w; traces := traces w;
     invocations := f (invocations w); awaiting := awaiting w;
     unhandled := unhandled w |}.

Definition with_awaiting (f : list Activation -> list Activation)
    (w : World) : World :=
  {| heap := heap w; this := this w; timers := timers w;
     nextTimer := nextTimer w; sink := sink w; traces := traces w;
     invocations := invocations w; awaiting := f (awaiting w);
     unhandled := unhandled w |}.

Definition with_unhandled (f : list Exn -> list Exn) (w : World) : World :=
  {| heap := heap w; this := this w; timers := timers w;
     nextTimer := nextTimer w; sink := sink w; traces := traces w;
     invocations := invocations w; awaiting := awaiting w;
     unhandled := f (unhandled w) |}.

Definition set_unackedMessageList (r : ArrayRef) (t : MessageBatchingManager) :=
  {| unackedMessageList := r; bufferSize := bufferSize t;
     timerHandle := timerHandle t; amqpChannel := amqpChannel t;
     logger := logger t; config := config t |}.

Definition set_bufferSize (n : Z) (t : MessageBatchingManager) :=
  {| unackedMessageList := unackedMessageList t; bufferSize := n;
     timerHandle := timerHandle t; amqpChannel := amqpChannel t;
     logger := logger t; config := config t |}.

Definition set_timerHandle (h : option TimerId) (t : MessageBatchingManager) :=
  {| unackedMessageList := unackedMessageList t; bufferSize := bufferSize t;
     timerHandle := h; amqpChannel := amqpChannel t;
     logger := logger t; config := config t |}.

Definition set_amqpChannel (c : option ChannelWrapper) (t : MessageBatchingManager) :=
  {| unackedMessageList := unackedMessageList t; bufferSize := bufferSize t;
     timerHandle := timerHandle t; amqpChannel := c;
     logger := logger t; config := config t |}.

Definition set_logger (l : option Logger) (t : MessageBatchingManager) :=
  {| unackedMessageList := unackedMessageList t; bufferSize := bufferSize t;
     timerHandle := timerHandle t; amqpChannel := amqpChannel t;
     logger := l; config := config t |}.

(** ** Statements: state and exceptions *)

(** How a statement completes. *)
Inductive Completion (A : Type) :=
| Normal (a : A)
| Abrupt (e : Exn).
Arguments Normal {A} a.
Arguments Abrupt {A} e.

Definition M (A : Type) : Type := World -> Completion A * World.

Definition ret {A} (a : A) : M A := fun w => (Normal a, w).

Definition throw {A} (e : Exn) : M A := fun w => (Abrupt e, w).

Definition bind {A B} (m : M A) (k : A -> M B) : M B :=
  fun w =>
    match m w with
    | (Normal a, w') => k a w'
    | (Abrupt e, w') => (Abrupt e, w')
    end.

(** [try { body } catch (e) { handler }] *)
Definition try_catch {A} (body : M A) (handler : Exn -> M A) : M A :=
  fun w =>
    match body w with
    | (Normal a, w') => (Normal a, w')
    | (Abrupt e, w') => handler e w'
    end.

Definition gets {A} (f : World -> A) : M A := fun w => (Normal (f w), w).

Definition modify (f : World -> World) : M unit := fun w => (Normal tt, f w).

Notation "x <- m ;; k" := (bind m (fun x => k))
  (at level 100, m at next level, k at level 200, right associativity).
Notation "m ;; k" := (bind m (fun _ => k))
  (at level 100, k at level 200, right associativity).

(** [for (let x of l) body] *)
Fixpoint for_of {A} (l : list A) (body : A -> M unit) : M unit :=
  match l with
  | [] => ret tt
  | x :: l' => body x ;; for_of l' body
  end.

(** Calling an [async] function without awaiting it: the caller gets a
    promise and goes on; a failure of the callee rejects that promise and,
    nobody handling it, is an unhandled rejection. *)
Definition spawn {A} (m : M A) : M unit :=
  fun w =>
    match m w with
    | (Normal _, w') => (Normal tt, w')
    | (Abrupt e, w') => (Normal tt, with_unhandled (fun l => l ++ [e]) w')
    end.

(** ** Arrays *)

(** The array literal [[]]: a new, empty array. *)
Definition new_array : M ArrayRef :=
  fun w => (Normal (length (heap w)), with_heap (fun h => h ++ [[]]) w).

(** The elements of the array behind a reference. *)
Definition array (r : ArrayRef) (w : World) : list ConsumeMessage :=
  default [] (heap w !! r).

(** [Array.prototype.push] *)
Definition push (r : ArrayRef) (msg : ConsumeMessage) : M unit :=
  modify (with_heap (alter (fun l => l ++ [msg]) r)).

(** ** The channel and the logger *)

Definition channel_ack (channel : ChannelWrapper) (msg : ConsumeMessage) : M unit :=
  modify (with_sink (fun s => s ++ [Ack channel msg])).

Definition channel_nack (channel : ChannelWrapper) (msg : ConsumeMessage)
    (requeue : option bool) : M unit :=
  modify (with_sink (fun s => s ++ [Nack channel msg requeue])).

(** [if (this.logger) this.logger.trace(line)] *)
Definition trace (line : string) : M unit :=
  l <- gets (fun w => logger (this w)) ;;
  match l with
  | Some _ => modify (with_traces (fun t => t ++ [line]))
  | None => ret tt
  end.

(** ** The buffered message store *)

Definition getMessageCount (w : World) : nat :=
  length (array (unackedMessageList (this w)) w).

Definition getBufferSize (w : World) : Z := bufferSize (this w).

Definition resetMessages : M unit :=
  r <- new_array ;;
  modify (with_this (set_unackedMessageList r)) ;;
  modify (with_this (set_bufferSize 0)).

Definition addMessage (msg : ConsumeMessage) : M unit :=
  r <- gets (fun w => unackedMessageList (this w)) ;;
  push r msg ;;
  n <- gets (fun w => bufferSize (this w)) ;;
  modify (with_this (set_bufferSize (n + byteLength (content msg)))).

(** The result is the pair [{bufferSize, unackedMessageList}]. *)
Definition finalizeMessages : M (Z * ArrayRef) :=
  l <- gets (fun w => unackedMessageList (this w)) ;;
  n <- gets (fun w => bufferSize (this w)) ;;
  resetMessages ;;
  ret (n, l).

(** ** The acknowledgment dispatcher *)

Definition ackMessageList (channel : ChannelWrapper) (messageList : ArrayRef) : M unit :=
  trace "MessageBatchingManager.ackMessageList: Start" ;;
  l <- gets (array messageList) ;;
  for_of l (fun msg => channel_ack channel msg) ;;
  trace "MessageBatchingManager.ackMessageList: End".

Definition nackMessageList (channel : ChannelWrapper) (messageList : ArrayRef)
    (requeue : option bool) : M unit :=
  trace "MessageBatchingManager.nackMessageList: Start" ;;
  l <- gets (array messageList) ;;
  for_of l (fun msg => channel_nack channel msg requeue) ;;
  trace "MessageBatchingManager.nackMessageList: End".

(** ** Timers *)

Definition setTimeout (handler : Handler) (ms : Z) : M TimerId :=
  t <- gets nextTimer ;;
  modify (with_timers (fun l => l ++ [(t, {| timeout_ms := ms; timeout_handler := handler |})])) ;;
  modify (with_nextTimer (S t)) ;;
  ret t.

Definition clearTimeout (t : TimerId) : M unit :=
  modify (with_timers (List.filter (fun p => negb (Nat.eqb (fst p) t)))).

Definition pending_timer (t : TimerId) (w : World) : option Timeout :=
  snd <$> List.find (fun p => Nat.eqb (fst p) t) (timers w).

(** ** The batch handed to the handler *)

Record BatchingOptions := {
  opt_maxTimeMs : option Z;
  opt_maxSizeBytes : option Z;
}.

(** [ConsumeBatchMessages], with the fields of the object literal built in
    [sendBufferedMessages]; [ackAll] and [nackAll] are the closures built
    there. *)
Record ConsumeBatchMessages := {
  batchingOptions : BatchingOptions;
  totalSizeInBytes : Z;
  messages : ArrayRef;
  ackAll : M unit;
  nackAll : option bool -> M unit;
}.

(** How an [async] call stands when control returns to its caller. *)
Inductive Async :=
| Done
| Suspended (act : Activation).

(** [this.amqpChannel!]: the field, asserted to be set.  It is set by
    [handleMessageBuffering] before any timer is armed, so the fallback is
    never read in a world the program reaches ([the_channel_recorded]
    below). *)
Definition the_channel (w : World) : ChannelWrapper :=
  default 0%nat (amqpChannel (this w)).

(** ** The batch coordinator *)

(** The catch block of [sendBufferedMessages]. *)
Definition catch_block (channel : ChannelWrapper) (unackedMessageList : ArrayRef) : M unit :=
  skip <- gets (fun w => truthy_bool (skipNackOnFail (config (this w)))) ;;
  l <- gets (array unackedMessageList) ;;
  if negb skip && (0 <? length l)%nat
  then nackMessageList channel unackedMessageList None
  else ret tt.

(** [await handler(...)]: the activation waits for the handler's promise. *)
Definition await (act : Activation) : M Async :=
  modify (with_awaiting (fun l => l ++ [act])) ;;
  ret (Suspended act).

Section Coordinator.

(** Calling the handler: [call channel messages] runs it up to the point
    where it returns its promise, or throws. *)
Variable call : ChannelWrapper -> ConsumeBatchMessages -> M unit.

(** [sendBufferedMessages], up to its [await].  The destructuring
    assignment from [finalizeMessages] is the first statement of the
    [try] block and cannot throw, so it is written before the [try]: the
    catch block always reads the list that was detached, never the
    initial [[]] of the local variable.  The line that extends
    [invocations] puts the call of the handler on record and is not part of
    the program. *)
Definition sendBufferedMessages_with (channel : ChannelWrapper) : M Async :=
  fin <- finalizeMessages ;;
  let bufferSize := fst fin in
  let unackedMessageList := snd fin in
  try_catch
    (maxTimeMs <- gets (fun w => maxTimeMs (config (this w))) ;;
     maxSizeBytes <- gets (fun w => maxSizeBytes (config (this w))) ;;
     let messages :=
       {| batchingOptions :=
            {| opt_maxTimeMs := maxTimeMs; opt_maxSizeBytes := maxSizeBytes |};
          totalSizeInBytes := bufferSize;
          messages := unackedMessageList;
          ackAll := ackMessageList channel unackedMessageList;
          nackAll := fun requeue =>
            nackMessageList channel unackedMessageList requeue |} in
     l <- gets (array unackedMessageList) ;;
     modify (with_invocations (fun i => i ++
       [{| inv_channel := channel; inv_totalSizeInBytes := bufferSize;
           inv_ref := unackedMessageList; inv_messages := l |}])) ;;
     call channel messages ;;
     await {| act_channel := channel; act_list := unackedMessageList |})
    (fun e =>
       catch_block channel unackedMessageList ;;
       ret Done).

(** [handleMessageBuffering], up to its [await]. *)
Definition handleMessageBuffering_with (handler : Handler)
    (channel : ChannelWrapper) (msg : ConsumeMessage) : M Async :=
  modify (with_this (set_amqpChannel (Some channel))) ;;
  addMessage msg ;;
  maxSizeBytes <- gets (fun w => maxSizeBytes (config (this w))) ;;
  size <- gets (fun w => bufferSize (this w)) ;;
  if truthy maxSizeBytes && geq size maxSizeBytes then
    handle <- gets (fun w => timerHandle (this w)) ;;
    match handle with
    | Some t =>
        clearTimeout t ;;
        modify (with_this (set_timerHandle None))
    | None => ret tt
    end ;;
    c <- gets the_channel ;;
    sendBufferedMessages_with c
  else
    maxTimeMs <- gets (fun w => maxTimeMs (config (this w))) ;;
    if truthy maxTimeMs then
      handle <- gets (fun w => timerHandle (this w)) ;;
      match handle with
      | None =>
          t <- setTimeout handler (default 0 maxTimeMs) ;;
          modify (with_this (set_timerHandle (Some t)))
      | Some _ => ret tt
      end ;;
      ret Done
    else ret Done.

End Coordinator.

(** Running a handler script: [handler(channel, messages)] up to the point
    where the handler returns its promise, or throws.  A handler that
    buffers a message calls the manager without awaiting the call. *)
Fixpoint call_handler (h : Handler) (channel : ChannelWrapper)
    (messages : ConsumeBatchMessages) : M unit :=
  match h with
  | HReturn => ret tt
  | HThrow e => throw e
  | HAckAll k =>
      ackAll messages ;;
      call_handler k channel messages
  | HNackAll requeue k =>
      nackAll messages requeue ;;
      call_handler k channel messages
  | HBuffer msg h' k =>
      spawn (handleMessageBuffering_with (call_handler h') h' channel msg) ;;
      call_handler k channel messages
  end.

Definition sendBufferedMessages (channel : ChannelWrapper) (handler : Handler) : M Async :=
  sendBufferedMessages_with (call_handler handler) channel.

Definition handleMessageBuffering (channel : ChannelWrapper) (msg : ConsumeMessage)
    (handler : Handler) : M Async :=
  handleMessageBuffering_with (call_handler handler) handler channel msg.

(** [sendBufferedMessages] after its [await]: the handler's promise has
    settled; a rejection is thrown inside the [try] block. *)
Definition resume_sendBufferedMessages (act : Activation)
    (settled : Completion unit) : M unit :=
  try_catch
    (match settled with
     | Normal _ => ret tt
     | Abrupt e => throw e
     end)
    (fun e => catch_block (act_channel act) (act_list act)).

(** [handleMessageBuffering] after its [await]: nothing is left to do but
    to pass on how [sendBufferedMessages] completed. *)
Definition resume_handleMessageBuffering (act : Activation)
    (settled : Completion unit) : M unit :=
  resume_sendBufferedMessages act settled.

(** The callback given to [setTimeout]. *)
Definition timerCallback (handler : Handler) : M unit :=
  c <- gets the_channel ;;
  spawn (sendBufferedMessages c handler) ;;
  modify (with_this (set_timerHandle None)).

(** ** Construction *)

(** The field initialisers of the class. *)
Definition fields (cfg : IMessageBatchingManagerConfig) : World :=
  {| heap := [[]];
     this := {| unackedMessageList := 0%nat; bufferSize := 1;
                timerHandle := None; amqpChannel := None;
                logger := None; config := cfg |};
     timers := []; nextTimer := 0%nat; sink := []; traces := [];
     invocations := []; awaiting := []; unhandled := [] |}.

(** [new MessageBatchingManager(config)] *)
Definition constructor (cfg : IMessageBatchingManagerConfig) : World :=
  snd ((modify (with_this (set_logger (providers_logger (providers cfg)))) ;;
        resetMessages) (fields cfg)).

(** ** The event loop *)

(** What can happen next: the consumer delivers a message, a pending timer
    fires, the promise of a handler that is being awaited settles. *)
Inductive Event :=
| Deliver (channel : ChannelWrapper) (msg : ConsumeMessage) (handler : Handler)
| Fire (t : TimerId)
| Settle (i : nat) (settled : Completion unit).

(** One turn of the event loop.  A timer that fires is no longer pending
    when its callback runs. *)
Definition step (ev : Event) : M unit :=
  match ev with
  | Deliver channel msg handler =>
      spawn (handleMessageBuffering channel msg handler)
  | Fire t =>
      p <- gets (pending_timer t) ;;
      match p with
      | Some tm =>
          clearTimeout t ;;
          timerCallback (timeout_handler tm)
      | None => ret tt
      end
  | Settle i settled =>
      a <- gets (fun w => awaiting w !! i) ;;
      match a with
      | Some act =>
          modify (with_awaiting (delete i)) ;;
          spawn (resume_handleMessageBuffering act settled)
      | None => ret tt
      end
  end.

Definition exec {A} (m : M A) (w : World) : World := snd (m w).

Definition run (evs : list Event) (w : World) : World :=
  fold_left (fun w ev => exec (step ev) w) evs w.

(** ** Derived notions used in the statements *)

(** The sum of the payload byte lengths of a list of messages. *)
Fixpoint total (l : list ConsumeMessage) : Z :=
  match l with
  | [] => 0
  | msg :: l' => byteLength (content msg) + total l'
  end.

(** The manager's current list is an array of the heap. *)
Definition wf (w : World) : Prop :=
  (unackedMessageList (this w) < length (heap w))%nat.

(** The store's invariant: the byte counter is the sum over the buffer. *)
Definition store_ok (w : World) : Prop :=
  bufferSize (this w) = total (array (unackedMessageList (this w)) w).

(** An array of the heap that the manager no longer refers to. *)
Definition released (w : World) (r : ArrayRef) : Prop :=
  (r < length (heap w))%nat /\ r <> unackedMessageList (this w).

(** The condition of the first [if] of [handleMessageBuffering], for a
    buffer of [size] bytes. *)
Definition size_reached (w : World) (size : Z) : bool :=
  truthy (maxSizeBytes (config (this w))) && geq size (maxSizeBytes (config (this w))).

(** The batch a flush started in [w] hands to the handler, and the world in
    which the handler is then called: the list is detached, the store is
    reset, the call is on record. *)
Definition flushed_batch (channel : ChannelWrapper) (w : World) : ConsumeBatchMessages :=
  {| batchingOptions :=
       {| opt_maxTimeMs := maxTimeMs (config (this w));
          opt_maxSizeBytes := maxSizeBytes (config (this w)) |};
     totalSizeInBytes := bufferSize (this w);
     messages := unackedMessageList (this w);
     ackAll := ackMessageList channel (unackedMessageList (this w));
     nackAll := fun requeue =>
       nackMessageList channel (unackedMessageList (this w)) requeue |}.

Definition at_handler (channel : ChannelWrapper) (w : World) : World :=
  let w1 := exec finalizeMessages w in
  with_invocations (fun i => i ++
    [{| inv_channel := channel; inv_totalSizeInBytes := bufferSize (this w);
        inv_ref := unackedMessageList (this w);
        inv_messages := array (unackedMessageList (this w)) w1 |}]) w1.

(** A handler that does not call back into the manager. *)
Fixpoint no_reentry (h : Handler) : bool :=
  match h with
  | HReturn | HThrow _ => true
  | HAckAll k | HNackAll _ k => no_reentry k
  | HBuffer _ _ _ => false
  end.

(** Two worlds that differ at most in what the channel and the logger
    received. *)
Definition same_core (w w' : World) : Prop :=
  heap w' = heap w /\ this w' = this w /\ timers w' = timers w /\
  nextTimer w' = nextTimer w /\ invocations w' = invocations w /\
  awaiting w' = awaiting w /\ unhandled w' = unhandled w.

Definition deliver (d : ChannelWrapper * ConsumeMessage * Handler) : Event :=
  Deliver (fst (fst d)) (snd (fst d)) (snd d).

Definition msg_of (d : ChannelWrapper * ConsumeMessage * Handler) : ConsumeMessage :=
  snd (fst d).

(** The calls [handleMessageBuffering(channel, msg, handler)] of [ds] made
    one after the other, where [call handler] stands for whatever calling
    [handler] does. *)
Definition deliveries_with
    (call : Handler -> ChannelWrapper -> ConsumeBatchMessages -> M unit)
    (ds : list (ChannelWrapper * ConsumeMessage * Handler)) (w : World) : World :=
  fold_left
    (fun w d =>
       exec (handleMessageBuffering_with (call (snd d)) (snd d) (fst (fst d)) (msg_of d)) w)
    ds w.

(** The world after the first two statements of [handleMessageBuffering]:
    the channel is recorded and the message is in the buffer. *)
Definition buffered (channel : ChannelWrapper) (msg : ConsumeMessage) (w : World) : World :=
  with_this (set_bufferSize (bufferSize (this w) + byteLength (content msg)))
    (with_heap (alter (fun l => l ++ [msg]) (unackedMessageList (this w)))
       (with_this (set_amqpChannel (Some channel)) w)).

(** The world after [if (this.timerHandle) { clearTimeout(...); ... }]. *)
Definition cancel_timer (w : World) : World :=
  match timerHandle (this w) with
  | Some t =>
      with_this (set_timerHandle None)
        (with_timers (List.filter (fun p => negb (Nat.eqb (fst p) t))) w)
  | None => w
  end.

(** The world after [if (!this.timerHandle) { this.timerHandle = setTimeout(...) }]. *)
Definition arm_timer (handler : Handler) (w : World) : World :=
  match timerHandle (this w) with
  | None =>
      with_this (set_timerHandle (Some (nextTimer w)))
        (with_nextTimer (S (nextTimer w))
           (with_timers (fun l => l ++
              [(nextTimer w,
                {| timeout_ms := default 0 (maxTimeMs (config (this w)));
                   timeout_handler := handler |})]) w))
  | Some _ => w
  end.

(** [frame w w']: from [w] to [w'] the configuration is the same, no
    rejection went unhandled, no array the manager had let go of was
    touched or taken back, the record of handler calls only grew, and the
    channel, once recorded, stayed recorded. *)
Record frame (w w' : World) : Prop := {
  frame_config : config (this w') = config (this w);
  frame_unhandled : unhandled w' = unhandled w;
  frame_released : forall r,
    released w r -> released w' r /\ heap w' !! r = heap w !! r;
  frame_invocations : exists l, invocations w' = invocations w ++ l;
  frame_channel :
    is_Some (amqpChannel (this w)) -> is_Some (amqpChannel (this w'));
}.

(** The invariant of the reachable worlds. *)
Record inv (w : World) : Prop := {
  inv_wf : wf w;
  inv_store : store_ok w;
  inv_nodup : NoDup (map inv_ref (invocations w));
  inv_released : Forall (released w) (map inv_ref (invocations w));
}.

Definition sound {A} (m : M A) : Prop :=
  forall w, frame w (snd (m w)) /\ (inv w -> inv (snd (m w))).

(** A statement that never completes abruptly. *)
Definition normal {A} (m : M A) : Prop :=
  forall w, exists a, fst (m w) = Normal a.

(** Worlds that agree on the store, the configuration and the records, the
    second having the channel recorded if the first has. *)
Definition store_same (w w' : World) : Prop :=
  heap w' = heap w /\
  unackedMessageList (this w') = unackedMessageList (this w) /\
  bufferSize (this w') = bufferSize (this w) /\
  config (this w') = config (this w) /\
  invocations w' = invocations w /\
  unhandled w' = unhandled w /\
  (is_Some (amqpChannel (this w)) -> is_Some (amqpChannel (this w'))).

(** While a callback of [setTimeout] is pending, the channel is on record. *)
Definition channel_known (w : World) : Prop :=
  timers w = [] \/ is_Some (amqpChannel (this w)).

(** ** Sample data *)

Definition payload (n : nat) : list Byte.byte := repeat Byte.x00 n.

Definition message (tag n : nat) : ConsumeMessage :=
  {| deliveryTag := tag; content := payload n |}.

Definition sample_config (size time : option Z) (skip : option bool) :
    IMessageBatchingManagerConfig :=
  {| providers := {| providers_logger := None |};
     maxSizeBytes := size; maxTimeMs := time; skipNackOnFail := skip |}.

(** A cycle that should be flushed by time has a timer pending for it. *)
Definition cycle_has_timer (w : World) : Prop :=
  (0 < getMessageCount w)%nat ->
  truthy (maxTimeMs (config (this w))) = true ->
  exists t, timerHandle (this w) = Some t /\ is_Some (pending_timer t w).

(** ** Further notions *)

(** The lines a logger, if there is one, adds to the log. *)
Definition logged (w : World) (lines : list string) : list string :=
  match logger (this w) with
  | Some _ => lines
  | None => []
  end.

(** The calls a handler script makes on the channel through the closures of
    the batch it was given, for a batch holding [batch]. *)
Fixpoint handler_calls (h : Handler) (channel : ChannelWrapper)
    (batch : list ConsumeMessage) : list SinkCall :=
  match h with
  | HReturn | HThrow _ => []
  | HAckAll k => map (Ack channel) batch ++ handler_calls k channel batch
  | HNackAll requeue k =>
      map (fun msg => Nack channel msg requeue) batch ++ handler_calls k channel batch
  | HBuffer _ _ k => handler_calls k channel batch
  end.

(** How a handler script ends: with the exception it throws, or with none
    when it returns its promise. *)
Fixpoint thrown (h : Handler) : option Exn :=
  match h with
  | HReturn => None
  | HThrow e => Some e
  | HAckAll k | HNackAll _ k | HBuffer _ _ k => thrown k
  end.

(** The calls of the catch block of [sendBufferedMessages] for a detached
    batch [batch]. *)
Definition safety_net (w : World) (channel : ChannelWrapper)
    (batch : list ConsumeMessage) : list SinkCall :=
  if negb (truthy_bool (skipNackOnFail (config (this w)))) && (0 <? length batch)%nat
  then map (fun msg => Nack channel msg None) batch
  else [].

(** The messages a sequence of events delivers, in order. *)
Fixpoint delivered (evs : list Event) : list ConsumeMessage :=
  match evs with
  | [] => []
  | Deliver _ msg _ :: evs' => msg :: delivered evs'
  | _ :: evs' => delivered evs'
  end.

(** The channel of the last of the deliveries [d1 :: ds]. *)
Definition last_channel (d1 : ChannelWrapper * ConsumeMessage * Handler)
    (ds : list (ChannelWrapper * ConsumeMessage * Handler)) : ChannelWrapper :=
  fst (fst (List.last ds d1)).

(** An event whose handler, if it has one, does not call back into the
    manager. *)
Definition quiet (ev : Event) : bool :=
  match ev with
  | Deliver _ _ h => no_reentry h
  | Fire _ | Settle _ _ => true
  end.

(** The handle and the pending callbacks agree: no handle and no callback,
    or one handle and exactly its callback, then with a buffer that is not
    empty. *)
Definition timer_inv (w : World) : Prop :=
  match timerHandle (this w) with
  | None => timers w = []
  | Some t =>
      exists tm, timers w = [(t, tm)] /\
        no_reentry (timeout_handler tm) = true /\
        array (unackedMessageList (this w)) w <> []
  end.

(** What a run of quiet events keeps. *)
Definition quiet_inv (w : World) : Prop :=
  wf w /\ timer_inv w /\
  Forall (fun i => inv_messages i <> []) (invocations w).

(** The byte total a handler call was given is the sum over the messages it
    was given. *)
Definition totals_ok (w : World) : Prop :=
  Forall (fun i => inv_totalSizeInBytes i = total (inv_messages i)) (invocations w).

(** Every message the manager has taken in, in the order it let go of them:
    the batches handed to the handler so far, then the buffer. *)
Definition handed (w : World) : list ConsumeMessage :=
  concat (map inv_messages (invocations w)) ++
  array (unackedMessageList (this w)) w.

(** * Proofs *)

(** ** Arithmetic of the byte counter *)

Lemma byteLength_nonneg b : 0 <= byteLength b.
Proof. unfold byteLength. lia. Qed.

Lemma total_nonneg l : 0 <= total l.
Proof.
  induction l as [|msg l IH]; simpl; [lia|].
  pose proof (byteLength_nonneg (content msg)). lia.
Qed.

Lemma total_app l1 l2 : total (l1 ++ l2) = total l1 + total l2.
Proof. induction l1 as [|msg l1 IH]; simpl; lia. Qed.

(** ** The heap *)

Lemma array_eq r w w' : heap w' !! r = heap w !! r -> array r w' = array r w.
Proof. unfold array. by intros ->. Qed.

Lemma array_new r w :
  array r (with_heap (fun h => h ++ [[]]) w) = array r w.
Proof.
  unfold array. change (heap (with_heap _ w)) with (heap w ++ [[]]).
  destruct (Nat.lt_ge_cases r (length (heap w))) as [Hlt|Hge].
  - by rewrite lookup_app_l.
  - rewrite (lookup_ge_None_2 (heap w)) by lia.
    rewrite lookup_app_r by lia.
    destruct (r - length (heap w))%nat as [|n]; [done|].
    by destruct n.
Qed.

Lemma array_new_here w :
  array (length (heap w)) (with_heap (fun h => h ++ [[]]) w) = [].
Proof.
  unfold array. change (heap (with_heap _ w)) with (heap w ++ [[]]).
  rewrite lookup_app_r by lia.
  by rewrite Nat.sub_diag.
Qed.

Lemma array_push_here r msg w :
  (r < length (heap w))%nat ->
  array r (with_heap (alter (fun l => l ++ [msg]) r) w) = array r w ++ [msg].
Proof.
  intros Hlt. unfold array.
  change (heap (with_heap _ w)) with (alter (fun l => l ++ [msg]) r (heap w)).
  destruct (lookup_lt_is_Some_2 (heap w) r Hlt) as [l Hl].
  by rewrite list_lookup_alter_eq, Hl.
Qed.


(** ** What never changes, and what every step keeps *)

Lemma frame_refl w : frame w w.
Proof. split; [done | done | done | | done]. exists []. by rewrite app_nil_r. Qed.

Lemma frame_trans w1 w2 w3 : frame w1 w2 -> frame w2 w3 -> frame w1 w3.
Proof.
  intros [Hc1 Hu1 Hr1 [l1 Hi1] Ha1] [Hc2 Hu2 Hr2 [l2 Hi2] Ha2]. split.
  - congruence.
  - congruence.
  - intros r Hr. destruct (Hr1 r Hr) as [Hr' Hl1].
    destruct (Hr2 r Hr') as [Hr'' Hl2]. split; [done | congruence].
  - exists (l1 ++ l2). by rewrite Hi2, Hi1, app_assoc.
  - auto.
Qed.

Lemma store_same_sound w w' : store_same w w' -> frame w w' /\ (inv w -> inv w').
Proof.
  intros (Hh & Hl & Hb & Hc & Hi & Hu & Ha).
  assert (Hrel : forall r, released w r -> released w' r).
  { intros r [? ?]. unfold released. rewrite Hh, Hl. done. }
  split.
  - split; [done | done | | | done].
    + intros r Hr. split; [auto | by rewrite Hh].
    + exists []. by rewrite app_nil_r.
  - intros [Hwf Hst Hnd Hre]. split.
    + unfold wf. by rewrite Hh, Hl.
    + unfold store_ok, array. by rewrite Hh, Hl, Hb.
    + by rewrite Hi.
    + rewrite Hi. eapply Forall_impl; [exact Hre | auto].
Qed.

Lemma same_core_store_same w w' : same_core w w' -> store_same w w'.
Proof.
  intros (Hh & Ht & _ & _ & Hi & _ & Hu).
  unfold store_same. rewrite Hh, Ht, Hi, Hu. done.
Qed.

(** *** The combinators *)

Lemma sound_ret {A} (a : A) : sound (ret a).
Proof. intros w. split; [apply frame_refl | done]. Qed.

Lemma sound_throw {A} e : sound (@throw A e).
Proof. intros w. split; [apply frame_refl | done]. Qed.

Lemma sound_gets {A} (f : World -> A) : sound (gets f).
Proof. intros w. split; [apply frame_refl | done]. Qed.

Lemma sound_modify f : (forall w, store_same w (f w)) -> sound (modify f).
Proof. intros H w. apply store_same_sound, H. Qed.

Lemma sound_bind {A B} (m : M A) (k : A -> M B) :
  sound m -> (forall a, sound (k a)) -> sound (bind m k).
Proof.
  intros Hm Hk w. unfold bind. destruct (Hm w) as [Hf Hi].
  destruct (m w) as [[a|e] w1]; simpl in *; [|done].
  destruct (Hk a w1) as [Hf' Hi']. split; [eapply frame_trans|]; eauto.
Qed.

Lemma sound_try_catch {A} (body : M A) handler :
  sound body -> (forall e, sound (handler e)) -> sound (try_catch body handler).
Proof.
  intros Hm Hk w. unfold try_catch. destruct (Hm w) as [Hf Hi].
  destruct (body w) as [[a|e] w1]; simpl in *; [done|].
  destruct (Hk e w1) as [Hf' Hi']. split; [eapply frame_trans|]; eauto.
Qed.

Lemma sound_spawn {A} (m : M A) : sound m -> normal m -> sound (spawn m).
Proof.
  intros Hm Hn w. unfold spawn. destruct (Hm w) as [Hf Hi].
  destruct (Hn w) as [a Ha].
  destruct (m w) as [[a'|e] w1]; simpl in *; [done | discriminate].
Qed.

Lemma sound_for_of {A} (l : list A) body :
  (forall x, sound (body x)) -> sound (for_of l body).
Proof.
  intros Hb. induction l as [|x l IH]; simpl.
  - apply sound_ret.
  - apply sound_bind; auto.
Qed.

Lemma normal_ret {A} (a : A) : normal (ret a).
Proof. intros w. by exists a. Qed.

Lemma normal_gets {A} (f : World -> A) : normal (gets f).
Proof. intros w. by eexists. Qed.

Lemma normal_modify f : normal (modify f).
Proof. intros w. by exists tt. Qed.

Lemma normal_bind {A B} (m : M A) (k : A -> M B) :
  normal m -> (forall a, normal (k a)) -> normal (bind m k).
Proof.
  intros Hm Hk w. unfold bind. destruct (Hm w) as [a Ha].
  destruct (m w) as [[a'|e] w1]; simpl in *; [apply Hk | discriminate].
Qed.

Lemma normal_try_catch {A} (body : M A) handler :
  (forall e, normal (handler e)) -> normal (try_catch body handler).
Proof.
  intros Hk w. unfold try_catch.
  destruct (body w) as [[a|e] w1]; simpl; [by exists a | apply Hk].
Qed.

Lemma normal_spawn {A} (m : M A) : normal (spawn m).
Proof.
  intros w. unfold spawn. destruct (m w) as [[a|e] w1]; by exists tt.
Qed.

Lemma normal_for_of {A} (l : list A) body :
  (forall x, normal (body x)) -> normal (for_of l body).
Proof.
  intros Hb. induction l as [|x l IH]; simpl.
  - apply normal_ret.
  - apply normal_bind; auto.
Qed.

(** Closes [store_same w (f w)] for a field update [f]. *)
Ltac same_store := repeat split; try done; intros _; by eexists.

Create HintDb steps discriminated.

#[local] Hint Resolve sound_ret sound_throw sound_gets sound_bind
  sound_try_catch sound_for_of normal_ret normal_gets normal_modify
  normal_bind normal_try_catch normal_spawn normal_for_of : steps.

(** *** The channel, the logger, the dispatcher *)

Lemma trace_spec line w :
  exists w', trace line w = (Normal tt, w') /\ same_core w w' /\ sink w' = sink w.
Proof.
  unfold trace, bind, gets. destruct (logger (this w)); eexists; repeat split.
Qed.

Lemma for_of_ack channel l w :
  exists w', for_of l (fun msg => channel_ack channel msg) w = (Normal tt, w') /\
    same_core w w' /\ traces w' = traces w /\
    sink w' = sink w ++ map (Ack channel) l.
Proof.
  revert w. induction l as [|msg l IH]; intros w; simpl.
  - exists w. rewrite app_nil_r. repeat split.
  - unfold bind.
    change (channel_ack channel msg w)
      with (Normal tt, with_sink (fun s => s ++ [Ack channel msg]) w).
    cbv beta iota.
    destruct (IH (with_sink (fun s => s ++ [Ack channel msg]) w))
      as (w' & -> & (? & ? & ? & ? & ? & ? & ?) & Ht & Hs).
    exists w'. rewrite Hs. simpl. rewrite <- app_assoc. repeat split; done.
Qed.

Lemma for_of_nack channel requeue l w :
  exists w', for_of l (fun msg => channel_nack channel msg requeue) w = (Normal tt, w') /\
    same_core w w' /\ traces w' = traces w /\
    sink w' = sink w ++ map (fun msg => Nack channel msg requeue) l.
Proof.
  revert w. induction l as [|msg l IH]; intros w; simpl.
  - exists w. rewrite app_nil_r. repeat split.
  - unfold bind.
    change (channel_nack channel msg requeue w)
      with (Normal tt, with_sink (fun s => s ++ [Nack channel msg requeue]) w).
    cbv beta iota.
    destruct (IH (with_sink (fun s => s ++ [Nack channel msg requeue]) w))
      as (w' & -> & (? & ? & ? & ? & ? & ? & ?) & Ht & Hs).
    exists w'. rewrite Hs. simpl. rewrite <- app_assoc. repeat split; done.
Qed.

Lemma same_core_trans w1 w2 w3 : same_core w1 w2 -> same_core w2 w3 -> same_core w1 w3.
Proof.
  intros (? & ? & ? & ? & ? & ? & ?) (? & ? & ? & ? & ? & ? & ?).
  repeat split; congruence.
Qed.

Lemma same_core_array r w w' : same_core w w' -> array r w' = array r w.
Proof. intros (Hh & _). apply array_eq. by rewrite Hh. Qed.

(** [ackMessageList] calls [ack] once for each message of the list, in the
    order of the list, and changes nothing else but the log. *)
Lemma ackMessageList_spec channel r w :
  exists w', ackMessageList channel r w = (Normal tt, w') /\
    same_core w w' /\ sink w' = sink w ++ map (Ack channel) (array r w).
Proof.
  unfold ackMessageList, bind at 1.
  destruct (trace_spec "MessageBatchingManager.ackMessageList: Start" w)
    as (w1 & -> & Hc1 & Hs1).
  unfold bind at 1, gets. unfold bind at 1.
  destruct (for_of_ack channel (array r w1) w1) as (w2 & -> & Hc2 & _ & Hs2).
  destruct (trace_spec "MessageBatchingManager.ackMessageList: End" w2)
    as (w3 & -> & Hc3 & Hs3).
  exists w3. split; [done|]. split.
  - eauto using same_core_trans.
  - rewrite Hs3, Hs2, Hs1. by rewrite (same_core_array r w w1).
Qed.

(** [nackMessageList] likewise, passing on [requeue]. *)
Lemma nackMessageList_spec channel r requeue w :
  exists w', nackMessageList channel r requeue w = (Normal tt, w') /\
    same_core w w' /\
    sink w' = sink w ++ map (fun msg => Nack channel msg requeue) (array r w).
Proof.
  unfold nackMessageList, bind at 1.
  destruct (trace_spec "MessageBatchingManager.nackMessageList: Start" w)
    as (w1 & -> & Hc1 & Hs1).
  unfold bind at 1, gets. unfold bind at 1.
  destruct (for_of_nack channel requeue (array r w1) w1) as (w2 & -> & Hc2 & _ & Hs2).
  destruct (trace_spec "MessageBatchingManager.nackMessageList: End" w2)
    as (w3 & -> & Hc3 & Hs3).
  exists w3. split; [done|]. split.
  - eauto using same_core_trans.
  - rewrite Hs3, Hs2, Hs1. by rewrite (same_core_array r w w1).
Qed.

Lemma sound_of_same_core {A} (m : M A) :
  (forall w, same_core w (snd (m w))) -> sound m.
Proof. intros H w. apply store_same_sound, same_core_store_same, H. Qed.

Lemma ackMessageList_sound channel r : sound (ackMessageList channel r).
Proof.
  apply sound_of_same_core. intros w.
  by destruct (ackMessageList_spec channel r w) as (w' & -> & ? & _).
Qed.

Lemma nackMessageList_sound channel r requeue :
  sound (nackMessageList channel r requeue).
Proof.
  apply sound_of_same_core. intros w.
  by destruct (nackMessageList_spec channel r requeue w) as (w' & -> & ? & _).
Qed.


Lemma nackMessageList_normal channel r requeue :
  normal (nackMessageList channel r requeue).
Proof.
  intros w. destruct (nackMessageList_spec channel r requeue w) as (w' & -> & _).
  by exists tt.
Qed.

(** *** The store *)

Lemma resetMessages_eq w :
  resetMessages w =
  (Normal tt,
   with_this (set_bufferSize 0)
     (with_this (set_unackedMessageList (length (heap w)))
        (with_heap (fun h => h ++ [[]]) w))).
Proof. reflexivity. Qed.

Lemma released_new w r :
  released w r ->
  released (with_this (set_bufferSize 0)
     (with_this (set_unackedMessageList (length (heap w)))
        (with_heap (fun h => h ++ [[]]) w))) r.
Proof.
  intros [Hlt Hne]. unfold released. simpl. rewrite length_app. simpl. lia.
Qed.

Lemma resetMessages_sound : sound resetMessages.
Proof.
  intros w. rewrite resetMessages_eq. simpl.
  assert (Hf : frame w (with_this (set_bufferSize 0)
     (with_this (set_unackedMessageList (length (heap w)))
        (with_heap (fun h => h ++ [[]]) w)))).
  { split; [done | done | | | done].
    - intros r Hr. split; [by apply released_new|].
      destruct Hr as [Hlt _]. simpl. by rewrite lookup_app_l.
    - exists []. simpl. by rewrite app_nil_r. }
  split; [done|]. intros [Hwf Hst Hnd Hre]. split.
  - unfold wf. simpl. rewrite length_app. simpl. lia.
  - unfold store_ok. simpl.
    change (array (length (heap w)) _) with
      (array (length (heap w)) (with_heap (fun h => h ++ [[]]) w)).
    by rewrite array_new_here.
  - done.
  - simpl. eapply Forall_impl; [exact Hre|]. intros r Hr. by apply Hf.
Qed.

Lemma addMessage_eq msg w :
  addMessage msg w =
  (Normal tt,
   with_this (set_bufferSize (bufferSize (this w) + byteLength (content msg)))
     (with_heap (alter (fun l => l ++ [msg]) (unackedMessageList (this w))) w)).
Proof. reflexivity. Qed.

Lemma addMessage_sound msg : sound (addMessage msg).
Proof.
  intros w. rewrite addMessage_eq. simpl.
  set (w' := with_this _ _).
  assert (Hf : frame w w').
  { split; [done | done | | | done].
    - intros r [Hlt Hne]. split.
      + unfold released. subst w'. simpl. by rewrite length_alter.
      + subst w'. simpl. by rewrite list_lookup_alter_ne.
    - exists []. subst w'. simpl. by rewrite app_nil_r. }
  split; [done|]. intros [Hwf Hst Hnd Hre]. split.
  - unfold wf. subst w'. simpl. by rewrite length_alter.
  - unfold store_ok. subst w'. simpl.
    change (array _ _) with
      (array (unackedMessageList (this w))
         (with_heap (alter (fun l => l ++ [msg]) (unackedMessageList (this w))) w)).
    rewrite array_push_here by done. rewrite total_app, Hst. simpl. lia.
  - done.
  - subst w'. simpl. eapply Forall_impl; [exact Hre|]. intros r Hr. by apply Hf.
Qed.

Lemma finalizeMessages_eq w :
  finalizeMessages w =
  (Normal (bufferSize (this w), unackedMessageList (this w)),
   snd (resetMessages w)).
Proof. reflexivity. Qed.

(** *** Timers, the catch block, the await *)

Lemma setTimeout_sound handler ms : sound (setTimeout handler ms).
Proof.
  unfold setTimeout.
  repeat (apply sound_bind; [|intros]); auto with steps;
    apply sound_modify; intros w; same_store.
Qed.

Lemma clearTimeout_sound t : sound (clearTimeout t).
Proof. apply sound_modify. intros w. same_store. Qed.

Lemma set_timerHandle_sound h : sound (modify (with_this (set_timerHandle h))).
Proof. apply sound_modify. intros w. same_store. Qed.

Lemma set_amqpChannel_sound c :
  sound (modify (with_this (set_amqpChannel (Some c)))).
Proof. apply sound_modify. intros w. same_store. Qed.

Lemma setTimeout_normal handler ms : normal (setTimeout handler ms).
Proof. unfold setTimeout. auto 10 with steps. Qed.

Lemma catch_block_sound channel r : sound (catch_block channel r).
Proof.
  unfold catch_block.
  apply sound_bind; [auto with steps | intros skip].
  apply sound_bind; [auto with steps | intros l].
  destruct (negb skip && (0 <? length l)%nat);
    [apply nackMessageList_sound | apply sound_ret].
Qed.

Lemma catch_block_normal channel r : normal (catch_block channel r).
Proof.
  unfold catch_block.
  apply normal_bind; [auto with steps | intros skip].
  apply normal_bind; [auto with steps | intros l].
  destruct (negb skip && (0 <? length l)%nat);
    [apply nackMessageList_normal | apply normal_ret].
Qed.

Lemma await_sound act : sound (await act).
Proof.
  unfold await. apply sound_bind; [|auto with steps].
  apply sound_modify. intros w. same_store.
Qed.

(** *** The flush *)

(** [sendBufferedMessages] calls the handler on [flushed_batch] in the world
    [at_handler]; what follows depends on how that call completes. *)
Lemma sendBufferedMessages_with_eq call channel w :
  sendBufferedMessages_with call channel w =
  match call channel (flushed_batch channel w) (at_handler channel w) with
  | (Normal _, w2) =>
      await {| act_channel := channel;
               act_list := unackedMessageList (this w) |} w2
  | (Abrupt e, w2) =>
      (catch_block channel (unackedMessageList (this w)) ;; ret Done) w2
  end.
Proof.
  unfold sendBufferedMessages_with, bind at 1. rewrite finalizeMessages_eq.
  cbv beta iota. unfold try_catch, bind, gets, modify. simpl.
  unfold flushed_batch, at_handler, exec.
  rewrite finalizeMessages_eq. simpl.
  destruct (call _ _ _) as [[[]|e] w2]; reflexivity.
Qed.

Lemma at_handler_sound channel w :
  frame w (at_handler channel w) /\ (inv w -> inv (at_handler channel w)).
Proof.
  unfold at_handler, exec. rewrite finalizeMessages_eq.
  destruct (resetMessages_sound w) as [Hf Hi]. simpl snd in *.
  set (w1 := with_this _ _) in *.
  split.
  - destruct Hf as [Hc Hu Hr _ Ha]. split; [done | done | done | | done].
    by eexists.
  - intros Hw. destruct (Hi Hw) as [Hwf1 Hst1 Hnd1 Hre1].
    destruct Hw as [Hwf Hst Hnd Hre]. split.
    + done.
    + done.
    + simpl. rewrite map_app. apply NoDup_app. split; [done|].
      split; [|apply NoDup_singleton].
      intros r Hin Hr. apply list_elem_of_singleton in Hr. subst r.
      rewrite Forall_forall in Hre. by destruct (Hre _ Hin).
    + simpl. rewrite map_app. apply Forall_app. split; [done|].
      apply Forall_singleton. unfold released, wf in *. subst w1. simpl.
      rewrite length_app. simpl. lia.
Qed.

Section Coordinator_sound.

Variable call : ChannelWrapper -> ConsumeBatchMessages -> M unit.

(** The handler is sound on the batches the manager builds. *)
Hypothesis call_sound : forall channel w, sound (call channel (flushed_batch channel w)).

Lemma sendBufferedMessages_with_sound channel :
  sound (sendBufferedMessages_with call channel).
Proof using call_sound.
  intros w. rewrite sendBufferedMessages_with_eq.
  destruct (at_handler_sound channel w) as [Hf Hi].
  destruct (call_sound channel w (at_handler channel w)) as [Hf' Hi'].
  destruct (call _ _ _) as [[[]|e] w2]; simpl snd in *.
  - destruct (await_sound {| act_channel := channel;
      act_list := unackedMessageList (this w) |} w2) as [Hf2 Hi2].
    split; [eauto using frame_trans | auto].
  - assert (Hs : sound (catch_block channel (unackedMessageList (this w)) ;; ret Done))
      by (apply sound_bind; [apply catch_block_sound | auto with steps]).
    destruct (Hs w2) as [Hf2 Hi2].
    split; [eauto using frame_trans | auto].
Qed.

Lemma sendBufferedMessages_with_normal channel :
  normal (sendBufferedMessages_with call channel).
Proof.
  unfold sendBufferedMessages_with.
  apply normal_bind; [intros w; rewrite finalizeMessages_eq; by eexists | intros fin].
  apply normal_try_catch. intros e.
  apply normal_bind; [apply catch_block_normal | auto with steps].
Qed.

Lemma handleMessageBuffering_with_sound handler channel msg :
  sound (handleMessageBuffering_with call handler channel msg).
Proof using call_sound.
  unfold handleMessageBuffering_with.
  apply sound_bind; [apply set_amqpChannel_sound | intros _].
  apply sound_bind; [apply addMessage_sound | intros _].
  apply sound_bind; [auto with steps | intros maxSizeBytes].
  apply sound_bind; [auto with steps | intros size].
  destruct (truthy maxSizeBytes && geq size maxSizeBytes).
  - apply sound_bind; [auto with steps | intros handle].
    apply sound_bind.
    + destruct handle; [|auto with steps].
      apply sound_bind; [apply clearTimeout_sound | intros _].
      apply set_timerHandle_sound.
    + intros _. apply sound_bind; [auto with steps | intros c].
      apply sendBufferedMessages_with_sound.
  - apply sound_bind; [auto with steps | intros maxTimeMs].
    destruct (truthy maxTimeMs); [|auto with steps].
    apply sound_bind; [auto with steps | intros handle].
    apply sound_bind; [|auto with steps].
    destruct handle; [auto with steps|].
    apply sound_bind; [apply setTimeout_sound | intros t].
    apply set_timerHandle_sound.
Qed.

Lemma handleMessageBuffering_with_normal handler channel msg :
  normal (handleMessageBuffering_with call handler channel msg).
Proof.
  unfold handleMessageBuffering_with.
  apply normal_bind; [auto with steps | intros _].
  apply normal_bind; [intros w; rewrite addMessage_eq; by eexists | intros _].
  apply normal_bind; [auto with steps | intros maxSizeBytes].
  apply normal_bind; [auto with steps | intros size].
  destruct (truthy maxSizeBytes && geq size maxSizeBytes).
  - apply normal_bind; [auto with steps | intros handle].
    apply normal_bind.
    + destruct handle; [|auto with steps].
      unfold clearTimeout. auto with steps.
    + intros _. apply normal_bind; [auto with steps | intros c].
      apply sendBufferedMessages_with_normal.
  - apply normal_bind; [auto with steps | intros maxTimeMs].
    destruct (truthy maxTimeMs); [|auto with steps].
    apply normal_bind; [auto with steps | intros handle].
    apply normal_bind; [|auto with steps].
    destruct handle; [auto with steps|].
    apply normal_bind; [apply setTimeout_normal | intros t].
    auto with steps.
Qed.

End Coordinator_sound.

(** A handler script is sound on every batch whose closures are. *)
Lemma call_handler_sound h : forall channel messages,
  sound (ackAll messages) -> (forall requeue, sound (nackAll messages requeue)) ->
  sound (call_handler h channel messages).
Proof.
  induction h as [|e|k IHk|requeue k IHk|msg h' IHh' k IHk];
    intros channel messages Hack Hnack; simpl.
  - apply sound_ret.
  - apply sound_throw.
  - apply sound_bind; [done | intros _; by apply IHk].
  - apply sound_bind; [done | intros _; by apply IHk].
  - apply sound_bind; [|intros _; by apply IHk].
    apply sound_spawn; [|apply handleMessageBuffering_with_normal].
    apply handleMessageBuffering_with_sound. intros c w.
    apply IHh'; simpl; intros;
      [apply ackMessageList_sound | apply nackMessageList_sound].
Qed.

Lemma call_handler_flushed_sound h channel w :
  sound (call_handler h channel (flushed_batch channel w)).
Proof.
  apply call_handler_sound; simpl; intros;
    [apply ackMessageList_sound | apply nackMessageList_sound].
Qed.

Lemma sendBufferedMessages_sound channel h : sound (sendBufferedMessages channel h).
Proof.
  unfold sendBufferedMessages.
  apply sendBufferedMessages_with_sound. intros c w.
  apply call_handler_flushed_sound.
Qed.

Lemma handleMessageBuffering_sound channel msg h :
  sound (handleMessageBuffering channel msg h).
Proof.
  unfold handleMessageBuffering.
  apply handleMessageBuffering_with_sound. intros c w.
  apply call_handler_flushed_sound.
Qed.

Lemma resume_sendBufferedMessages_sound act settled :
  sound (resume_sendBufferedMessages act settled).
Proof.
  unfold resume_sendBufferedMessages. apply sound_try_catch.
  - destruct settled; auto with steps.
  - intros e. apply catch_block_sound.
Qed.

Lemma resume_sendBufferedMessages_normal act settled :
  normal (resume_sendBufferedMessages act settled).
Proof.
  unfold resume_sendBufferedMessages. apply normal_try_catch.
  intros e. apply catch_block_normal.
Qed.

Lemma timerCallback_sound h : sound (timerCallback h).
Proof.
  unfold timerCallback.
  apply sound_bind; [auto with steps | intros c].
  apply sound_bind; [|intros _; apply set_timerHandle_sound].
  apply sound_spawn;
    [apply sendBufferedMessages_sound
    | unfold sendBufferedMessages; apply sendBufferedMessages_with_normal].
Qed.

Lemma step_sound ev : sound (step ev).
Proof.
  destruct ev as [channel msg h|t|i settled]; simpl.
  - apply sound_spawn;
      [apply handleMessageBuffering_sound
      | unfold handleMessageBuffering; apply handleMessageBuffering_with_normal].
  - apply sound_bind; [auto with steps | intros [tm|]]; [|auto with steps].
    apply sound_bind; [apply clearTimeout_sound | intros _].
    apply timerCallback_sound.
  - apply sound_bind; [auto with steps | intros [act|]]; [|auto with steps].
    apply sound_bind.
    + apply sound_modify. intros w. same_store.
    + intros _. apply sound_spawn;
        [apply resume_sendBufferedMessages_sound
        | apply resume_sendBufferedMessages_normal].
Qed.

Lemma run_app evs1 evs2 w : run (evs1 ++ evs2) w = run evs2 (run evs1 w).
Proof. unfold run. by rewrite fold_left_app. Qed.

Lemma run_sound evs : forall w,
  frame w (run evs w) /\ (inv w -> inv (run evs w)).
Proof.
  induction evs as [|ev evs IH]; intros w; simpl.
  - split; [apply frame_refl | done].
  - destruct (step_sound ev w) as [Hf Hi].
    destruct (IH (exec (step ev) w)) as [Hf' Hi'].
    split; [eapply frame_trans; eauto | auto].
Qed.

Lemma constructor_inv cfg : inv (constructor cfg).
Proof.
  split.
  - unfold wf. simpl. lia.
  - reflexivity.
  - simpl. apply NoDup_nil_2.
  - simpl. constructor.
Qed.

(** *** [handleMessageBuffering], case by case *)

Lemma handleMessageBuffering_with_eq call h channel msg w :
  handleMessageBuffering_with call h channel msg w =
  let w1 := buffered channel msg w in
  if size_reached w1 (bufferSize (this w1))
  then sendBufferedMessages_with call channel (cancel_timer w1)
  else if truthy (maxTimeMs (config (this w1)))
       then (Normal Done, arm_timer h w1)
       else (Normal Done, w1).
Proof.
  unfold handleMessageBuffering_with, size_reached, cancel_timer, arm_timer.
  unfold bind at 1, modify at 1. unfold bind at 1. rewrite addMessage_eq.
  change (with_this (set_bufferSize _)
            (with_heap _ (with_this (set_amqpChannel (Some channel)) w)))
    with (buffered channel msg w).
  cbv beta iota. set (w1 := buffered channel msg w).
  unfold bind at 1, gets at 1. unfold bind at 1, gets at 1.
  cbv zeta.
  destruct (truthy (maxSizeBytes (config (this w1))) &&
            geq (bufferSize (this w1)) (maxSizeBytes (config (this w1)))).
  - unfold bind at 1, gets at 1.
    destruct (timerHandle (this w1)) as [t|]; reflexivity.
  - unfold bind at 1, gets at 1.
    destruct (truthy (maxTimeMs (config (this w1)))); [|reflexivity].
    unfold bind at 1, gets at 1.
    destruct (timerHandle (this w1)) as [t|]; reflexivity.
Qed.

Lemma buffered_wf channel msg w : wf w -> wf (buffered channel msg w).
Proof. unfold wf, buffered. simpl. by rewrite length_alter. Qed.

Lemma buffered_array channel msg w :
  wf w ->
  array (unackedMessageList (this w)) (buffered channel msg w) =
  array (unackedMessageList (this w)) w ++ [msg].
Proof.
  intros Hwf. unfold buffered.
  change (array ?r (with_this _ ?w')) with (array r w').
  change (array ?r (with_heap ?f (with_this ?g w))) with (array r (with_heap f w)).
  by apply array_push_here.
Qed.

Lemma store_same_refl w : store_same w w.
Proof. same_store. Qed.

Lemma store_same_trans w1 w2 w3 :
  store_same w1 w2 -> store_same w2 w3 -> store_same w1 w3.
Proof.
  intros (? & ? & ? & ? & ? & ? & ?) (? & ? & ? & ? & ? & ? & ?).
  repeat split; try congruence. auto.
Qed.

Lemma arm_timer_store_same h w : store_same w (arm_timer h w).
Proof. unfold arm_timer. destruct (timerHandle (this w)); same_store. Qed.

Lemma cancel_timer_store_same w : store_same w (cancel_timer w).
Proof. unfold cancel_timer. destruct (timerHandle (this w)); same_store. Qed.

Lemma store_same_wf w w' : store_same w w' -> wf w -> wf w'.
Proof. intros (Hh & Hl & _). unfold wf. by rewrite Hh, Hl. Qed.

Lemma store_same_array r w w' : store_same w w' -> array r w' = array r w.
Proof. intros (Hh & _). apply array_eq. by rewrite Hh. Qed.

Lemma deliver_eq channel msg h w :
  exec (step (Deliver channel msg h)) w = snd (handleMessageBuffering channel msg h w).
Proof.
  unfold exec, step, spawn.
  destruct (handleMessageBuffering_with_normal (call_handler h) h channel msg w)
    as [a Ha].
  unfold handleMessageBuffering.
  by destruct (handleMessageBuffering_with _ _ _ _ _) as [[a'|e] w1].
Qed.

Lemma deliver_no_flush channel msg h w :
  size_reached (buffered channel msg w) (bufferSize (this (buffered channel msg w))) = false ->
  exec (step (Deliver channel msg h)) w =
  if truthy (maxTimeMs (config (this w)))
  then arm_timer h (buffered channel msg w)
  else buffered channel msg w.
Proof.
  intros Hs. rewrite deliver_eq. unfold handleMessageBuffering.
  rewrite handleMessageBuffering_with_eq. cbv zeta. rewrite Hs.
  change (config (this (buffered channel msg w))) with (config (this w)).
  by destruct (truthy (maxTimeMs (config (this w)))).
Qed.

Lemma deliver_flush channel msg h w :
  size_reached (buffered channel msg w) (bufferSize (this (buffered channel msg w))) = true ->
  exec (step (Deliver channel msg h)) w =
  snd (sendBufferedMessages channel h (cancel_timer (buffered channel msg w))).
Proof.
  intros Hs. rewrite deliver_eq. unfold handleMessageBuffering.
  rewrite handleMessageBuffering_with_eq. cbv zeta. by rewrite Hs.
Qed.

(** The record a flush started in [w] makes of its call of the handler. *)
Lemma at_handler_invocations channel w :
  invocations (at_handler channel w) =
  invocations w ++
  [{| inv_channel := channel; inv_totalSizeInBytes := bufferSize (this w);
      inv_ref := unackedMessageList (this w);
      inv_messages := array (unackedMessageList (this w)) w |}].
Proof.
  unfold at_handler, exec. rewrite finalizeMessages_eq. simpl.
  do 3 f_equal.
  change (array ?r (with_this _ (with_this _ ?w'))) with (array r w').
  apply array_new.
Qed.

Lemma at_handler_store channel w :
  getMessageCount (at_handler channel w) = 0%nat /\
  getBufferSize (at_handler channel w) = 0.
Proof.
  unfold at_handler, exec, getMessageCount, getBufferSize.
  rewrite finalizeMessages_eq. simpl. split; [|done].
  change (array ?r (with_invocations _ (with_this _ (with_this _ ?w'))))
    with (array r w').
  by rewrite array_new_here.
Qed.

(** From the call of the handler to the end of [sendBufferedMessages]. *)
Lemma sendBufferedMessages_frame channel h w :
  frame (at_handler channel w) (snd (sendBufferedMessages channel h w)).
Proof.
  unfold sendBufferedMessages. rewrite sendBufferedMessages_with_eq.
  destruct (call_handler_flushed_sound h channel w (at_handler channel w)) as [Hf _].
  destruct (call_handler _ _ _ _) as [[[]|e] w2]; simpl snd in *.
  - eapply frame_trans; [exact Hf|]. apply await_sound.
  - eapply frame_trans; [exact Hf|].
    assert (Hs : sound (catch_block channel (unackedMessageList (this w)) ;; ret Done))
      by (apply sound_bind; [apply catch_block_sound | auto with steps]).
    apply Hs.
Qed.

(** A handler that does not call back changes nothing but what the channel
    and the logger received. *)
Lemma call_handler_quiet h channel messages :
  no_reentry h = true ->
  (forall w, same_core w (snd (ackAll messages w))) ->
  (forall requeue w, same_core w (snd (nackAll messages requeue w))) ->
  forall w, same_core w (snd (call_handler h channel messages w)).
Proof.
  intros Hno Hack Hnack.
  induction h as [|e|k IHk|requeue k IHk|msg h' IHh' k IHk]; simpl in *; intros w.
  - repeat split.
  - repeat split.
  - unfold bind. specialize (Hack w).
    destruct (ackAll messages w) as [[[]|e] w1]; simpl in *; [|done].
    eapply same_core_trans; eauto.
  - unfold bind. specialize (Hnack requeue w).
    destruct (nackAll messages requeue w) as [[[]|e] w1]; simpl in *; [|done].
    eapply same_core_trans; eauto.
  - discriminate.
Qed.

Lemma flushed_batch_quiet h channel w0 :
  no_reentry h = true ->
  forall w, same_core w (snd (call_handler h channel (flushed_batch channel w0) w)).
Proof.
  intros Hno. apply call_handler_quiet; [done | |]; simpl.
  - intros w. by destruct (ackMessageList_spec channel (unackedMessageList (this w0)) w)
      as (w' & -> & ? & _).
  - intros rq w.
    by destruct (nackMessageList_spec channel (unackedMessageList (this w0)) rq w)
      as (w' & -> & ? & _).
Qed.

Lemma catch_block_same_core channel r w :
  same_core w (snd (catch_block channel r w)).
Proof.
  unfold catch_block, bind, gets.
  destruct (negb _ && _).
  - by destruct (nackMessageList_spec channel r None w) as (w' & -> & ? & _).
  - repeat split.
Qed.

(** With such a handler the flush leaves the store as the detaching left
    it. *)
Lemma flush_quiet channel h w :
  no_reentry h = true ->
  store_same (at_handler channel w) (snd (sendBufferedMessages channel h w)).
Proof.
  intros Hno. unfold sendBufferedMessages. rewrite sendBufferedMessages_with_eq.
  pose proof (flushed_batch_quiet h channel w Hno (at_handler channel w)) as Hq.
  destruct (call_handler _ _ _ _) as [[[]|e] w2]; simpl snd in *.
  - eapply store_same_trans; [by apply same_core_store_same|]. same_store.
  - eapply store_same_trans; [by apply same_core_store_same|].
    unfold bind.
    pose proof (catch_block_same_core channel (unackedMessageList (this w)) w2) as Hc.
    destruct (catch_block _ _ _) as [[[]|e'] w3]; by apply same_core_store_same.
Qed.

(** ** Sequences of deliveries that do not flush *)

Lemma buffered_facts channel msg w :
  wf w ->
  let w1 := buffered channel msg w in
  wf w1 /\
  unackedMessageList (this w1) = unackedMessageList (this w) /\
  array (unackedMessageList (this w)) w1 = array (unackedMessageList (this w)) w ++ [msg] /\
  bufferSize (this w1) = bufferSize (this w) + byteLength (content msg) /\
  config (this w1) = config (this w) /\
  invocations w1 = invocations w.
Proof.
  intros Hwf. cbv zeta. split; [by apply buffered_wf|].
  split; [done|]. split; [by apply buffered_array|]. done.
Qed.

(** One delivery below the size threshold appends the message, and that is
    all it does to the store. *)
Lemma deliver_below channel msg h w :
  wf w ->
  size_reached w (bufferSize (this w) + byteLength (content msg)) = false ->
  let w1 := exec (step (Deliver channel msg h)) w in
  wf w1 /\
  unackedMessageList (this w1) = unackedMessageList (this w) /\
  array (unackedMessageList (this w)) w1 = array (unackedMessageList (this w)) w ++ [msg] /\
  bufferSize (this w1) = bufferSize (this w) + byteLength (content msg) /\
  config (this w1) = config (this w) /\
  invocations w1 = invocations w.
Proof.
  intros Hwf Hs. cbv zeta. rewrite deliver_no_flush by exact Hs.
  destruct (buffered_facts channel msg w Hwf) as (Hwf1 & Hl & Ha & Hb & Hc & Hi).
  set (w1 := buffered channel msg w) in *.
  assert (Hsame : store_same w1
    (if truthy (maxTimeMs (config (this w))) then arm_timer h w1 else w1)).
  { destruct (truthy _); [apply arm_timer_store_same | apply store_same_refl]. }
  set (w2 := if truthy _ then _ else _) in *.
  pose proof (store_same_array (unackedMessageList (this w)) _ _ Hsame) as Ha2.
  pose proof (store_same_wf _ _ Hsame Hwf1) as Hwf2.
  destruct Hsame as (Hh & Hl2 & Hb2 & Hc2 & Hi2 & _).
  repeat split; congruence.
Qed.

(** One delivery that reaches the size threshold flushes: the record of
    handler calls grows. *)
Lemma deliver_at_threshold channel msg h w :
  size_reached w (bufferSize (this w) + byteLength (content msg)) = true ->
  exists x l, invocations (exec (step (Deliver channel msg h)) w) = invocations w ++ x :: l.
Proof.
  intros Hs. rewrite deliver_flush by exact Hs.
  set (wc := cancel_timer (buffered channel msg w)).
  destruct (sendBufferedMessages_frame channel h wc) as [_ _ _ [l Hl] _].
  rewrite at_handler_invocations in Hl.
  assert (Hi : invocations wc = invocations w).
  { subst wc. by destruct (cancel_timer_store_same (buffered channel msg w))
      as (_ & _ & _ & _ & -> & _). }
  rewrite Hi, <- app_assoc in Hl. simpl in Hl. eauto.
Qed.

Lemma no_flush_run ds : forall w,
  wf w ->
  invocations (run (map deliver ds) w) = invocations w ->
  let w' := run (map deliver ds) w in
  unackedMessageList (this w') = unackedMessageList (this w) /\
  array (unackedMessageList (this w)) w' =
    array (unackedMessageList (this w)) w ++ map msg_of ds /\
  bufferSize (this w') = bufferSize (this w) + total (map msg_of ds).
Proof.
  induction ds as [|[[channel msg] h] ds IH]; intros w Hwf Hinv; cbv zeta.
  - simpl. rewrite app_nil_r. repeat split; lia.
  - change (run (map deliver ((channel, msg, h) :: ds)) w)
      with (run (map deliver ds) (exec (step (Deliver channel msg h)) w)) in *.
    change (map msg_of ((channel, msg, h) :: ds)) with (msg :: map msg_of ds).
    set (w1 := exec (step (Deliver channel msg h)) w) in *.
    destruct (step_sound (Deliver channel msg h) w) as [[_ _ _ [l1 Hl1] _] _].
    change (snd (step (Deliver channel msg h) w)) with w1 in Hl1.
    destruct (run_sound (map deliver ds) w1) as [[_ _ _ [l2 Hl2] _] _].
    rewrite Hl2, Hl1, <- app_assoc in Hinv.
    rewrite <- (app_nil_r (invocations w)) in Hinv at 2.
    apply app_inv_head in Hinv. apply app_eq_nil in Hinv as [-> ->].
    rewrite app_nil_r in Hl1, Hl2.
    destruct (size_reached w (bufferSize (this w) + byteLength (content msg))) eqn:Hs.
    + destruct (deliver_at_threshold channel msg h w Hs) as (x & l & Hx).
      fold w1 in Hx. rewrite Hl1 in Hx.
      rewrite <- (app_nil_r (invocations w)) in Hx at 1.
      apply app_inv_head in Hx. discriminate.
    + destruct (deliver_below channel msg h w Hwf Hs) as (Hwf1 & Hl & Ha & Hb & _ & _).
      fold w1 in Hwf1, Hl, Ha, Hb.
      destruct (IH w1 Hwf1 Hl2) as (Hl' & Ha' & Hb').
      rewrite Hl in Ha'. rewrite Hl', Ha', Hb', Hl, Ha, Hb.
      rewrite <- app_assoc. simpl. repeat split; lia.
Qed.

Lemma below_run N ds : forall w,
  wf w ->
  maxSizeBytes (config (this w)) = Some N ->
  bufferSize (this w) + total (map msg_of ds) < N ->
  let w' := run (map deliver ds) w in
  wf w' /\
  unackedMessageList (this w') = unackedMessageList (this w) /\
  array (unackedMessageList (this w)) w' =
    array (unackedMessageList (this w)) w ++ map msg_of ds /\
  bufferSize (this w') = bufferSize (this w) + total (map msg_of ds) /\
  config (this w') = config (this w) /\
  invocations w' = invocations w.
Proof.
  induction ds as [|[[channel msg] h] ds IH]; intros w Hwf Hmax Hlt; cbv zeta.
  - simpl. rewrite app_nil_r. repeat split; [done | lia].
  - change (run (map deliver ((channel, msg, h) :: ds)) w)
      with (run (map deliver ds) (exec (step (Deliver channel msg h)) w)) in *.
    change (map msg_of ((channel, msg, h) :: ds)) with (msg :: map msg_of ds) in *.
    set (w1 := exec (step (Deliver channel msg h)) w).
    pose proof (total_nonneg (map msg_of ds)) as Hnn.
    simpl in Hlt.
    assert (Hs : size_reached w (bufferSize (this w) + byteLength (content msg)) = false).
    { unfold size_reached, geq. rewrite Hmax. apply andb_false_intro2.
      apply Z.leb_gt. lia. }
    destruct (deliver_below channel msg h w Hwf Hs) as (Hwf1 & Hl & Ha & Hb & Hc & Hi).
    fold w1 in Hwf1, Hl, Ha, Hb, Hc, Hi.
    destruct (IH w1 Hwf1) as (Hwf' & Hl' & Ha' & Hb' & Hc' & Hi').
    { by rewrite Hc. }
    { rewrite Hb. lia. }
    rewrite Hl in Ha'. rewrite Hl', Ha', Hb', Hc', Hi', Hl, Ha, Hb, Hc, Hi.
    rewrite <- app_assoc. simpl. repeat split; [done | lia].
Qed.

(** Below the size threshold no handler is called: the deliveries end in the
    same world whatever calling a handler would do. *)
Lemma below_run_any_call N call ds : forall w,
  wf w ->
  maxSizeBytes (config (this w)) = Some N ->
  bufferSize (this w) + total (map msg_of ds) < N ->
  deliveries_with call ds w = run (map deliver ds) w.
Proof.
  induction ds as [|[[channel msg] h] ds IH]; intros w Hwf Hmax Hlt; [done|].
  change (run (map deliver ((channel, msg, h) :: ds)) w)
    with (run (map deliver ds) (exec (step (Deliver channel msg h)) w)).
  change (deliveries_with call ((channel, msg, h) :: ds) w)
    with (deliveries_with call ds
            (exec (handleMessageBuffering_with (call h) h channel msg) w)).
  change (map msg_of ((channel, msg, h) :: ds)) with (msg :: map msg_of ds) in *.
  pose proof (total_nonneg (map msg_of ds)) as Hnn.
  simpl in Hlt.
  assert (Hs : size_reached w (bufferSize (this w) + byteLength (content msg)) = false).
  { unfold size_reached, geq. rewrite Hmax. apply andb_false_intro2.
    apply Z.leb_gt. lia. }
  assert (He : exec (handleMessageBuffering_with (call h) h channel msg) w =
               exec (step (Deliver channel msg h)) w).
  { rewrite (deliver_no_flush channel msg h w Hs).
    unfold exec. rewrite handleMessageBuffering_with_eq. cbv zeta.
    change (size_reached (buffered channel msg w) (bufferSize (this (buffered channel msg w))))
      with (size_reached w (bufferSize (this w) + byteLength (content msg))).
    rewrite Hs.
    change (config (this (buffered channel msg w))) with (config (this w)).
    by destruct (truthy (maxTimeMs (config (this w)))). }
  rewrite He.
  destruct (deliver_below channel msg h w Hwf Hs) as (Hwf1 & _ & _ & Hb & Hc & _).
  apply IH; [done | by rewrite Hc | rewrite Hb; lia].
Qed.

(** ** The channel is on record whenever a timer is pending *)

Lemma deliver_records_channel channel msg h w :
  is_Some (amqpChannel (this (exec (step (Deliver channel msg h)) w))).
Proof.
  rewrite deliver_eq. unfold handleMessageBuffering.
  rewrite handleMessageBuffering_with_eq. cbv zeta.
  set (wb := buffered channel msg w).
  assert (Hb : is_Some (amqpChannel (this wb))) by (by eexists).
  destruct (size_reached wb _).
  - destruct (sendBufferedMessages_sound channel h (cancel_timer wb)) as [[_ _ _ _ Ha] _].
    apply Ha. unfold cancel_timer. by destruct (timerHandle (this wb)).
  - destruct (truthy _); [|done].
    unfold arm_timer. by destruct (timerHandle (this wb)).
Qed.

Lemma settle_keeps_timers i settled w :
  timers (exec (step (Settle i settled)) w) = timers w.
Proof.
  unfold exec, step. unfold bind at 1, gets at 1.
  destruct (awaiting w !! i) as [act|]; [|done].
  unfold bind at 1, modify at 1, spawn, resume_handleMessageBuffering,
    resume_sendBufferedMessages, try_catch.
  set (w1 := with_awaiting _ w).
  destruct settled as [[]|e]; [done|]. unfold throw.
  pose proof (catch_block_same_core (act_channel act) (act_list act) w1) as Hc.
  destruct (catch_block _ _ _) as [[[]|e'] w2]; simpl in *;
    by destruct Hc as (_ & _ & -> & _).
Qed.

Lemma fire_not_pending t w :
  pending_timer t w = None -> exec (step (Fire t)) w = w.
Proof. intros Hp. unfold exec, step, bind, gets. by rewrite Hp. Qed.

Lemma pending_timer_nonempty t tm w : pending_timer t w = Some tm -> timers w <> [].
Proof. unfold pending_timer. by destruct (timers w). Qed.

Lemma step_channel_known ev w :
  channel_known w -> channel_known (exec (step ev) w).
Proof.
  intros Hk. destruct ev as [channel msg h|t|i settled].
  - right. apply deliver_records_channel.
  - destruct (pending_timer t w) as [tm|] eqn:Hp.
    + destruct Hk as [Hk|Hk]; [by apply pending_timer_nonempty in Hp|].
      right. destruct (step_sound (Fire t) w) as [[_ _ _ _ Ha] _]. by apply Ha.
    + by rewrite fire_not_pending.
  - destruct Hk as [Hk|Hk].
    + left. by rewrite settle_keeps_timers.
    + right. destruct (step_sound (Settle i settled) w) as [[_ _ _ _ Ha] _].
      by apply Ha.
Qed.

Lemma run_channel_known evs : forall w,
  channel_known w -> channel_known (run evs w).
Proof.
  induction evs as [|ev evs IH]; intros w Hk; simpl; [done|].
  by apply IH, step_channel_known.
Qed.

(** In a world reached from a constructed manager, a timer that is pending
    finds the channel recorded: the callback's [this.amqpChannel!] is the
    channel of the latest call of [handleMessageBuffering]. *)
Lemma the_channel_recorded cfg evs t tm :
  pending_timer t (run evs (constructor cfg)) = Some tm ->
  amqpChannel (this (run evs (constructor cfg))) =
    Some (the_channel (run evs (constructor cfg))).
Proof.
  intros Hp.
  destruct (run_channel_known evs (constructor cfg)) as [Hk|[c Hc]].
  - by left.
  - by apply pending_timer_nonempty in Hp.
  - unfold the_channel. by rewrite Hc.
Qed.

(** ** Sequences of [addMessage] *)

Lemma addMessage_run msgs : forall w,
  wf w ->
  let w' := exec (for_of msgs addMessage) w in
  wf w' /\
  unackedMessageList (this w') = unackedMessageList (this w) /\
  array (unackedMessageList (this w)) w' =
    array (unackedMessageList (this w)) w ++ msgs /\
  bufferSize (this w') = bufferSize (this w) + total msgs.
Proof.
  induction msgs as [|msg msgs IH]; intros w Hwf; cbv zeta.
  - unfold exec. simpl. rewrite app_nil_r. repeat split; [done | lia].
  - unfold exec. simpl.
    set (w1 := with_this (set_bufferSize (bufferSize (this w) + byteLength (content msg)))
                 (with_heap (alter (fun l => l ++ [msg]) (unackedMessageList (this w))) w)).
    assert (Heq : (addMessage msg ;; for_of msgs addMessage) w =
                  for_of msgs addMessage w1)
      by (unfold bind; by rewrite addMessage_eq).
    rewrite Heq.
    assert (Hwf1 : wf w1) by (unfold wf; subst w1; simpl; by rewrite length_alter).
    destruct (IH w1 Hwf1) as (Hwf' & Hl & Ha & Hb).
    unfold exec in Hwf', Hl, Ha, Hb.
    change (unackedMessageList (this w1)) with (unackedMessageList (this w)) in *.
    change (bufferSize (this w1))
      with (bufferSize (this w) + byteLength (content msg)) in Hb.
    assert (Ha1 : array (unackedMessageList (this w)) w1 =
                  array (unackedMessageList (this w)) w ++ [msg]).
    { subst w1. change (array ?r (with_this _ ?w')) with (array r w').
      by apply array_push_here. }
    rewrite Ha1, <- app_assoc in Ha. simpl in Ha.
    repeat split; [done | done | done | lia].
Qed.

(** * The properties of the specification *)

(** C10: Immediately after constructing a manager with any configuration the
    store is empty: [getMessageCount] is 0 and [getBufferSize] is 0.  The
    field initialiser gives [bufferSize] the value 1, and the constructor's
    reset overrides it, so the first message appended starts from a byte
    total of zero. *)
Theorem C10_constructed_store_is_empty (cfg : IMessageBatchingManagerConfig) :
  bufferSize (this (fields cfg)) = 1 /\
  getMessageCount (constructor cfg) = 0%nat /\
  getBufferSize (constructor cfg) = 0 /\
  forall msg,
    getMessageCount (exec (addMessage msg) (constructor cfg)) = 1%nat /\
    getBufferSize (exec (addMessage msg) (constructor cfg)) = byteLength (content msg).
Proof.
  split; [reflexivity|]. split; [reflexivity|]. split; [reflexivity|].
  intros msg. split; reflexivity.
Qed.

(** C7: [finalizeMessages] returns the store's current message list and byte
    total as they were just before the call, and leaves the store empty:
    afterwards [getMessageCount] is 0 and [getBufferSize] is 0, whatever the
    store held. *)
Theorem C7_finalizeMessages_detaches_and_resets (w : World) :
  exists w',
    finalizeMessages w =
      (Normal (getBufferSize w, unackedMessageList (this w)), w') /\
    array (unackedMessageList (this w)) w' = array (unackedMessageList (this w)) w /\
    getMessageCount w' = 0%nat /\
    getBufferSize w' = 0.
Proof.
  rewrite finalizeMessages_eq, resetMessages_eq. eexists. split; [reflexivity|].
  simpl snd. split; [|split; [|reflexivity]].
  - change (array ?r (with_this _ (with_this _ ?w'))) with (array r w').
    apply array_new.
  - unfold getMessageCount.
    change (array _ _) with
      (array (length (heap w)) (with_heap (fun h => h ++ [[]]) w)).
    by rewrite array_new_here.
Qed.

(** C3: A failure of the handler during a flush, thrown or delivered as a
    rejection, never leaves [handleMessageBuffering]: the call completes
    normally, its continuation after the handler has settled completes
    normally, the same holds for [sendBufferedMessages], and no run of the
    event loop ends with a rejection nobody handled. *)
Theorem C3_handler_failure_is_absorbed :
  (forall channel msg handler w,
     exists a, fst (handleMessageBuffering channel msg handler w) = Normal a) /\
  (forall act settled w,
     exists a, fst (resume_handleMessageBuffering act settled w) = Normal a) /\
  (forall channel handler w,
     exists a, fst (sendBufferedMessages channel handler w) = Normal a) /\
  (forall evs w, unhandled (run evs w) = unhandled w).
Proof.
  split; [|split; [|split]].
  - intros channel msg handler w. unfold handleMessageBuffering.
    apply handleMessageBuffering_with_normal.
  - intros act settled w. unfold resume_handleMessageBuffering.
    apply resume_sendBufferedMessages_normal.
  - intros channel handler w. unfold sendBufferedMessages.
    apply sendBufferedMessages_with_normal.
  - intros evs w. by destruct (run_sound evs w) as [[_ Hu _ _ _] _].
Qed.

(** C6: For every sequence of deliveries during which no flush is triggered
    (the handler is never called), the buffer holds exactly the delivered
    messages, in order, the message count is the number of deliveries and
    the byte total is the sum of their payload lengths; the same holds for
    every sequence of [addMessage] on a new manager.  And the byte total is
    the sum over the buffer after every addition, reset and detaching, and
    in every world the event loop reaches from a constructed manager. *)
Theorem C6_store_accounting (cfg : IMessageBatchingManagerConfig)
    (ds : list (nat * ConsumeMessage * Handler)) (evs : list Event) :
  let w := run (map deliver ds) (constructor cfg) in
  (invocations w = [] ->
     array (unackedMessageList (this w)) w = map msg_of ds /\
     getMessageCount w = length ds /\
     getBufferSize w = total (map msg_of ds)) /\
  (forall msgs,
     let w1 := exec (for_of msgs addMessage) (constructor cfg) in
     array (unackedMessageList (this w1)) w1 = msgs /\
     getMessageCount w1 = length msgs /\
     getBufferSize w1 = total msgs) /\
  store_ok (run evs (constructor cfg)) /\
  (forall w0 msg, wf w0 -> store_ok w0 -> store_ok (exec (addMessage msg) w0)) /\
  (forall w0, store_ok (exec resetMessages w0)) /\
  (forall w0, store_ok (exec finalizeMessages w0)).
Proof.
  cbv zeta. split; [|split; [|split; [|split; [|split]]]].
  - intros Hinv.
    destruct (no_flush_run ds (constructor cfg)) as (Hl & Ha & Hb).
    { unfold wf. simpl. lia. }
    { by rewrite Hinv. }
    unfold getMessageCount, getBufferSize. rewrite Hl, Ha, Hb.
    change (array _ (constructor cfg)) with (@nil ConsumeMessage).
    simpl. rewrite length_map. repeat split; lia.
  - intros msgs.
    destruct (addMessage_run msgs (constructor cfg)) as (_ & Hl & Ha & Hb).
    { unfold wf. simpl. lia. }
    unfold getMessageCount, getBufferSize. rewrite Hl, Ha, Hb.
    change (array _ (constructor cfg)) with (@nil ConsumeMessage).
    simpl. repeat split; lia.
  - destruct (run_sound evs (constructor cfg)) as [_ Hi].
    apply Hi, constructor_inv.
  - intros w0 msg Hwf Hst. unfold exec. rewrite addMessage_eq.
    unfold store_ok. simpl.
    change (array _ _) with
      (array (unackedMessageList (this w0))
         (with_heap (alter (fun l => l ++ [msg]) (unackedMessageList (this w0))) w0)).
    rewrite array_push_here by done. rewrite total_app, Hst. simpl. lia.
  - intros w0. unfold exec. rewrite resetMessages_eq. unfold store_ok. simpl.
    change (array _ _) with
      (array (length (heap w0)) (with_heap (fun h => h ++ [[]]) w0)).
    by rewrite array_new_here.
  - intros w0. unfold exec. rewrite finalizeMessages_eq, resetMessages_eq.
    unfold store_ok. simpl.
    change (array _ _) with
      (array (length (heap w0)) (with_heap (fun h => h ++ [[]]) w0)).
    by rewrite array_new_here.
Qed.

(** Three messages of 4 bytes under a threshold of 100: no flush, three
    messages and twelve bytes in the store. *)
Lemma C6_store_accounting_witness :
  let cfg := sample_config (Some 100) None None in
  let ds := [(7%nat, message 1 4, HReturn); (7%nat, message 2 4, HReturn);
             (7%nat, message 3 4, HReturn)] in
  let w := run (map deliver ds) (constructor cfg) in
  invocations w = [] /\ getMessageCount w = 3%nat /\ getBufferSize w = 12.
Proof.
  cbv zeta.
  pose proof (C6_store_accounting (sample_config (Some 100) None None)
    [(7%nat, message 1 4, HReturn); (7%nat, message 2 4, HReturn);
     (7%nat, message 3 4, HReturn)] []) as H.
  cbv zeta in H. destruct H as [H _].
  split; [reflexivity|]. destruct (H eq_refl) as (_ & Hc & Hb).
  split; [exact Hc | exact Hb].
Defined.

Lemma at_handler_array channel w r : array r (at_handler channel w) = array r w.
Proof.
  unfold at_handler, exec. rewrite finalizeMessages_eq. simpl.
  change (array r (with_invocations _ (with_this _ (with_this _ ?w')))) with (array r w').
  apply array_new.
Qed.

Lemma store_same_count w w' :
  store_same w w' ->
  getMessageCount w' = getMessageCount w /\ getBufferSize w' = getBufferSize w.
Proof.
  intros Hs. unfold getMessageCount, getBufferSize.
  pose proof (store_same_array (unackedMessageList (this w)) _ _ Hs) as Ha.
  destruct Hs as (_ & Hl & Hb & _). by rewrite Hl, Ha, Hb.
Qed.

(** C1: With [maxSizeBytes = N], let messages be delivered to an empty store
    so that their cumulative payload size first reaches or exceeds [N] on
    the k-th delivery (the first k-1 are [ds], the k-th is [msg]).  The
    first k-1 calls call no handler: they end in the same world [w1]
    whatever calling a handler would do.  The k-th call calls the handler
    exactly once, within the call: whatever calling the handler does, the
    k-th call is that call, made on the batch [batch] in the world
    [at_handler channel wc], followed by what [sendBufferedMessages] does
    with its outcome.  That batch has [totalSizeInBytes] the cumulative sum
    and holds the k messages in the order they were delivered, and in the
    world in which the handler is called the store is empty (count 0,
    bytes 0).  Unless the handler itself hands messages to the manager while
    it is being called, the store is empty as well when the k-th call
    returns, and the call is the only one on record. *)
Theorem C1_size_threshold_flush (w : World) (N : Z)
    (ds : list (nat * ConsumeMessage * Handler))
    (channel : nat) (msg : ConsumeMessage) (h : Handler) :
  wf w ->
  getMessageCount w = 0%nat ->
  getBufferSize w = 0 ->
  maxSizeBytes (config (this w)) = Some N ->
  total (map msg_of ds) < N <= total (map msg_of ds ++ [msg]) ->
  let w1 := run (map deliver ds) w in
  let wc := cancel_timer (buffered channel msg w1) in
  let w' := run (map deliver ds ++ [Deliver channel msg h]) w in
  let batch := flushed_batch channel wc in
  let call :=
    {| inv_channel := channel;
       inv_totalSizeInBytes := total (map msg_of ds ++ [msg]);
       inv_ref := unackedMessageList (this w);
       inv_messages := map msg_of ds ++ [msg] |} in
  (forall handlers, deliveries_with handlers ds w = w1) /\
  (forall handler,
     handleMessageBuffering_with handler h channel msg w1 =
     match handler channel batch (at_handler channel wc) with
     | (Normal _, w2) =>
         await {| act_channel := channel;
                  act_list := unackedMessageList (this w) |} w2
     | (Abrupt e, w2) =>
         (catch_block channel (unackedMessageList (this w)) ;; ret Done) w2
     end) /\
  totalSizeInBytes batch = total (map msg_of ds ++ [msg]) /\
  messages batch = unackedMessageList (this w) /\
  array (messages batch) (at_handler channel wc) = map msg_of ds ++ [msg] /\
  w' = exec (sendBufferedMessages channel h) wc /\
  array (messages batch) wc = map msg_of ds ++ [msg] /\
  invocations (at_handler channel wc) = invocations w ++ [call] /\
  getMessageCount (at_handler channel wc) = 0%nat /\
  getBufferSize (at_handler channel wc) = 0 /\
  (no_reentry h = true ->
     invocations w' = invocations w ++ [call] /\
     getMessageCount w' = 0%nat /\
     getBufferSize w' = 0).
Proof.
  intros Hwf Hcount Hsize Hmax [Hlt Hge]. cbv zeta.
  unfold getMessageCount, getBufferSize in Hcount, Hsize.
  apply length_zero_iff_nil in Hcount.
  rewrite total_app in Hge. simpl in Hge.
  pose proof (total_nonneg (map msg_of ds)) as Hnn.
  destruct (below_run N ds w Hwf Hmax) as (Hwf1 & Hl1 & Ha1 & Hb1 & Hc1 & Hi1).
  { rewrite Hsize. lia. }
  rewrite run_app. set (w1 := run (map deliver ds) w) in *.
  change (run [Deliver channel msg h] w1) with (exec (step (Deliver channel msg h)) w1).
  rewrite Hcount in Ha1. simpl in Ha1. rewrite Hsize in Hb1. simpl in Hb1.
  assert (Hs : size_reached w1 (bufferSize (this w1) + byteLength (content msg)) = true).
  { unfold size_reached, geq, truthy. rewrite Hc1, Hmax, Hb1.
    apply andb_true_intro. split.
    - apply negb_true_iff, Z.eqb_neq. lia.
    - apply Z.leb_le. lia. }
  rewrite deliver_flush by exact Hs.
  assert (Htie : forall handler,
    handleMessageBuffering_with handler h channel msg w1 =
    match handler channel (flushed_batch channel (cancel_timer (buffered channel msg w1)))
            (at_handler channel (cancel_timer (buffered channel msg w1))) with
    | (Normal _, w2) =>
        await {| act_channel := channel;
                 act_list := unackedMessageList (this w) |} w2
    | (Abrupt e, w2) =>
        (catch_block channel (unackedMessageList (this w)) ;; ret Done) w2
    end).
  { intros handler. rewrite handleMessageBuffering_with_eq. cbv zeta.
    change (size_reached (buffered channel msg w1)
              (bufferSize (this (buffered channel msg w1))))
      with (size_reached w1 (bufferSize (this w1) + byteLength (content msg))).
    rewrite Hs.
    rewrite sendBufferedMessages_with_eq.
    assert (Hl : unackedMessageList (this (cancel_timer (buffered channel msg w1))) =
                 unackedMessageList (this w)).
    { destruct (cancel_timer_store_same (buffered channel msg w1)) as (_ & -> & _).
      exact Hl1. }
    by rewrite Hl. }
  destruct (buffered_facts channel msg w1 Hwf1) as (Hwfb & Hlb & Hab & Hbb & Hcb & Hib).
  set (wb := buffered channel msg w1) in *.
  pose proof (cancel_timer_store_same wb) as Hcs.
  pose proof (store_same_array (unackedMessageList (this w)) _ _ Hcs) as Hac.
  destruct Hcs as (_ & Hlc & Hbc & _ & Hic & _).
  set (wc := cancel_timer wb) in *.
  destruct (at_handler_store channel wc) as [Hc0 Hb0].
  assert (Htot : bufferSize (this wc) = total (map msg_of ds ++ [msg])).
  { rewrite Hbc, Hbb, Hb1, total_app. simpl. lia. }
  assert (Harr : array (unackedMessageList (this wc)) wc = map msg_of ds ++ [msg]).
  { rewrite Hlc, Hlb, Hl1, Hac. by rewrite <- Hl1, Hab, Hl1, Ha1. }
  assert (Hinv : invocations (at_handler channel wc) =
                 invocations w ++
                 [{| inv_channel := channel;
                     inv_totalSizeInBytes := total (map msg_of ds ++ [msg]);
                     inv_ref := unackedMessageList (this w);
                     inv_messages := map msg_of ds ++ [msg] |}]).
  { rewrite at_handler_invocations, Hic, Hib, Hi1, Htot, Harr.
    by rewrite Hlc, Hlb, Hl1. }
  split.
  { intros handlers. apply (below_run_any_call N); [done | done |].
    rewrite Hsize. lia. }
  split; [exact Htie|]. split; [exact Htot|].
  split; [by rewrite <- Hl1, <- Hlb, <- Hlc|].
  split; [by rewrite at_handler_array|].
  split; [done|]. split; [exact Harr|].
  split; [exact Hinv|]. split; [exact Hc0|]. split; [exact Hb0|].
  intros Hno.
  pose proof (flush_quiet channel h wc Hno) as Hq.
  destruct (store_same_count _ _ Hq) as [Hqc Hqb].
  destruct Hq as (_ & _ & _ & _ & Hqi & _).
  unfold exec. split; [|split; congruence].
  by rewrite Hqi.
Qed.

(** The scenario of the specification: a threshold of 10 bytes and three
    messages of 4 bytes; the third delivery flushes 12 bytes in 3
    messages. *)
Lemma C1_size_threshold_flush_witness :
  let w := constructor (sample_config (Some 10) None None) in
  let w' := run [Deliver 7%nat (message 1 4) HReturn;
                 Deliver 7%nat (message 2 4) HReturn;
                 Deliver 7%nat (message 3 4) (HAckAll HReturn)] w in
  invocations w' =
    [{| inv_channel := 7%nat; inv_totalSizeInBytes := 12; inv_ref := 1%nat;
        inv_messages := [message 1 4; message 2 4; message 3 4] |}] /\
  getMessageCount w' = 0%nat /\
  getBufferSize w' = 0.
Proof.
  cbv zeta.
  assert (Hth : total (map msg_of
                  [(7%nat, message 1 4, HReturn); (7%nat, message 2 4, HReturn)]) < 10
                <= total (map msg_of
                  [(7%nat, message 1 4, HReturn); (7%nat, message 2 4, HReturn)]
                  ++ [message 3 4]))
    by (simpl; unfold byteLength; simpl; lia).
  assert (Hwf : wf (constructor (sample_config (Some 10) None None)))
    by (unfold wf; simpl; lia).
  destruct (C1_size_threshold_flush
              (constructor (sample_config (Some 10) None None)) 10
              [(7%nat, message 1 4, HReturn); (7%nat, message 2 4, HReturn)]
              7%nat (message 3 4) (HAckAll HReturn)
              Hwf eq_refl eq_refl eq_refl Hth)
    as (_ & _ & _ & _ & _ & _ & _ & _ & _ & _ & Hend).
  exact (Hend eq_refl).
Defined.

(** ** The detached batch *)

Lemma released_at_handler channel w :
  wf w -> released (at_handler channel w) (unackedMessageList (this w)).
Proof.
  unfold wf, released, at_handler, exec. rewrite finalizeMessages_eq. simpl.
  rewrite length_app. simpl. lia.
Qed.

(** Whatever happens after the detaching, the detached list and the
    configuration stay what they were. *)
Lemma detached_stable channel w w2 :
  wf w -> frame (at_handler channel w) w2 ->
  array (unackedMessageList (this w)) w2 = array (unackedMessageList (this w)) w /\
  config (this w2) = config (this w) /\
  released w2 (unackedMessageList (this w)).
Proof.
  intros Hwf [Hc _ Hr _ _].
  destruct (Hr _ (released_at_handler channel w Hwf)) as [Hrel Hl].
  split; [|split; [|done]].
  - rewrite <- (at_handler_array channel w). by apply array_eq.
  - rewrite Hc. by destruct (at_handler_sound channel w) as [[-> _ _ _ _] _].
Qed.

Lemma catch_block_nacks channel r w :
  truthy_bool (skipNackOnFail (config (this w))) = false ->
  array r w <> [] ->
  exists w3, catch_block channel r w = (Normal tt, w3) /\
    same_core w w3 /\
    sink w3 = sink w ++ map (fun msg => Nack channel msg None) (array r w).
Proof.
  intros Hskip Hne. unfold catch_block, bind, gets. rewrite Hskip.
  destruct (array r w) as [|m l] eqn:Ha; [done|]. simpl.
  destruct (nackMessageList_spec channel r None w) as (w3 & -> & Hc & Hs).
  exists w3. rewrite Hs, Ha. done.
Qed.

Lemma catch_block_skip channel r w :
  truthy_bool (skipNackOnFail (config (this w))) = true ->
  catch_block channel r w = (Normal tt, w).
Proof. intros Hskip. unfold catch_block, bind, gets. by rewrite Hskip. Qed.

Lemma sendBufferedMessages_suspended channel h w act w1 :
  sendBufferedMessages channel h w = (Normal (Suspended act), w1) ->
  act = {| act_channel := channel; act_list := unackedMessageList (this w) |}.
Proof.
  unfold sendBufferedMessages. rewrite sendBufferedMessages_with_eq.
  destruct (call_handler _ _ _ _) as [[[]|e] w2].
  - unfold await, bind, modify, ret. by intros [= <- _].
  - unfold bind.
    destruct (catch_block_normal channel (unackedMessageList (this w)) w2) as [[] Hn].
    destruct (catch_block _ _ _) as [[[]|e'] w3]; simpl in *; discriminate.
Qed.



(** C9: In a flush whose handler fails while [skipNackOnFail] is true, the
    manager makes no call on the channel: the world after the flush is the
    world the handler left, both when the handler throws and when its
    promise is rejected later. *)
Theorem C9_no_nack_when_skipNackOnFail (w : World) (channel : nat) (h : Handler) :
  truthy_bool (skipNackOnFail (config (this w))) = true ->
  (forall e w2,
     call_handler h channel (flushed_batch channel w) (at_handler channel w)
       = (Abrupt e, w2) ->
     sendBufferedMessages channel h w = (Normal Done, w2)) /\
  (forall act w1 evs e,
     sendBufferedMessages channel h w = (Normal (Suspended act), w1) ->
     resume_sendBufferedMessages act (Abrupt e) (run evs w1)
       = (Normal tt, run evs w1)).
Proof.
  intros Hskip.
  assert (Hc0 : config (this (at_handler channel w)) = config (this w))
    by (by destruct (at_handler_sound channel w) as [[-> _ _ _ _] _]).
  split.
  - intros e w2 Hcall.
    unfold sendBufferedMessages. rewrite sendBufferedMessages_with_eq, Hcall.
    destruct (call_handler_flushed_sound h channel w (at_handler channel w))
      as [[Hc _ _ _ _] _].
    rewrite Hcall in Hc. cbn [snd] in Hc.
    unfold bind. rewrite catch_block_skip; [done|]. by rewrite Hc, Hc0.
  - intros act w1 evs e Hsend.
    destruct (sendBufferedMessages_frame channel h w) as [Hc _ _ _ _].
    rewrite Hsend in Hc. cbn [snd] in Hc.
    destruct (run_sound evs w1) as [[Hc' _ _ _ _] _].
    unfold resume_sendBufferedMessages, try_catch, throw.
    rewrite catch_block_skip; [done|]. by rewrite Hc', Hc, Hc0.
Qed.

(** Two messages are buffered, the handler throws, nacks are skipped: the
    channel receives nothing. *)
Lemma C9_no_nack_when_skipNackOnFail_witness :
  let w := run [Deliver 7%nat (message 1 4) HReturn;
                Deliver 7%nat (message 2 3) HReturn]
               (constructor (sample_config None None (Some true))) in
  sink (exec (sendBufferedMessages 7%nat (HThrow (Error 1))) w) = [].
Proof.
  cbv zeta.
  set (w := run _ _).
  assert (Hskip : truthy_bool (skipNackOnFail (config (this w))) = true)
    by reflexivity.
  destruct (C9_no_nack_when_skipNackOnFail w 7%nat (HThrow (Error 1)) Hskip)
    as [Hthrow _].
  unfold exec. rewrite (Hthrow (Error 1) (at_handler 7%nat w) eq_refl).
  reflexivity.
Defined.

(** C5: The [ackAll] and [nackAll] of the batch a flush hands to the handler
    are bound to the list detached by that flush and to the channel of that
    flush.  The batch the flush started in [w] hands over is [batch]:
    whatever calling the handler does, [sendBufferedMessages] is that call,
    made on [batch], followed by what it does with the call's outcome.
    After the flush and after any sequence of later events (messages
    delivered into new cycles, on any channel, timers firing, other flushes,
    promises settling), calling the [ackAll] and the [nackAll] of [batch]
    acknowledges, respectively rejects, exactly the messages of the detached
    batch, in order, on that channel, and touches nothing else. *)
Theorem C5_closures_bound_to_detached_batch (w : World) (channel : nat)
    (h : Handler) (evs : list Event) :
  wf w ->
  let batch := flushed_batch channel w in
  let detached := array (unackedMessageList (this w)) w in
  let w2 := run evs (exec (sendBufferedMessages channel h) w) in
  (forall handler,
     sendBufferedMessages_with handler channel w =
     match handler channel batch (at_handler channel w) with
     | (Normal _, w1) =>
         await {| act_channel := channel;
                  act_list := unackedMessageList (this w) |} w1
     | (Abrupt e, w1) =>
         (catch_block channel (unackedMessageList (this w)) ;; ret Done) w1
     end) /\
  messages batch = unackedMessageList (this w) /\
  array (messages batch) (at_handler channel w) = detached /\
  array (messages batch) w2 = detached /\
  (exists w3, ackAll batch w2 = (Normal tt, w3) /\
     same_core w2 w3 /\
     sink w3 = sink w2 ++ map (Ack channel) detached) /\
  (forall requeue, exists w3, nackAll batch requeue w2 = (Normal tt, w3) /\
     same_core w2 w3 /\
     sink w3 = sink w2 ++ map (fun msg => Nack channel msg requeue) detached).
Proof.
  intros Hwf. cbv zeta.
  set (w2 := run evs (exec (sendBufferedMessages channel h) w)).
  destruct (detached_stable channel w w2 Hwf) as (Ha & _ & _).
  { eapply frame_trans; [apply sendBufferedMessages_frame|].
    apply run_sound. }
  split; [intros handler; apply sendBufferedMessages_with_eq|].
  split; [done|]. split; [apply at_handler_array|]. split; [exact Ha|]. split.
  - simpl.
    destruct (ackMessageList_spec channel (unackedMessageList (this w)) w2)
      as (w3 & He & Hc & Hs).
    exists w3. by rewrite <- Ha.
  - intros requeue. simpl.
    destruct (nackMessageList_spec channel (unackedMessageList (this w)) requeue w2)
      as (w3 & He & Hc & Hs).
    exists w3. by rewrite <- Ha.
Qed.

(** A batch of two messages is flushed on channel 7; a third message then
    arrives on channel 8 and starts a new cycle.  [ackAll] of the first batch
    still acknowledges the first two messages, on channel 7. *)
Lemma C5_closures_bound_to_detached_batch_witness :
  let w := run [Deliver 7%nat (message 1 4) HReturn;
                Deliver 7%nat (message 2 3) HReturn]
               (constructor (sample_config None None None)) in
  let w2 := run [Deliver 8%nat (message 3 5) HReturn]
               (exec (sendBufferedMessages 7%nat HReturn) w) in
  exists w3,
    ackAll (flushed_batch 7%nat w) w2 = (Normal tt, w3) /\
    sink w3 = [Ack 7%nat (message 1 4); Ack 7%nat (message 2 3)].
Proof.
  cbv zeta.
  set (w := run _ (constructor _)).
  assert (Hwf : wf w) by (unfold wf; simpl; lia).
  destruct (C5_closures_bound_to_detached_batch w 7%nat HReturn
              [Deliver 8%nat (message 3 5) HReturn] Hwf)
    as (_ & _ & _ & _ & (w3 & Hack & _ & Hsink) & _).
  exists w3. split; [exact Hack | exact Hsink].
Defined.

(** ** Timers *)

Lemma fire_eq t tm w :
  pending_timer t w = Some tm ->
  exec (step (Fire t)) w =
  with_this (set_timerHandle None)
    (exec (sendBufferedMessages (the_channel w) (timeout_handler tm))
       (exec (clearTimeout t) w)).
Proof.
  intros Hp. unfold exec, step. unfold bind at 1, gets at 1. rewrite Hp.
  unfold bind at 1, clearTimeout at 1, modify at 1.
  unfold timerCallback. unfold bind at 1, gets at 1.
  unfold bind at 1, spawn.
  change (the_channel (with_timers _ w)) with (the_channel w).
  set (wc := with_timers _ w).
  destruct (sendBufferedMessages_with_normal
              (call_handler (timeout_handler tm)) (the_channel w) wc) as [a Ha].
  unfold sendBufferedMessages in *.
  by destruct (sendBufferedMessages_with _ _ _) as [[a'|e] w1].
Qed.

(** C4 does not hold of the code: an accumulation cycle can have two timers
    and two flushes.  Both thresholds are configured.  The handler of the
    first message, while the flush of the timer is calling it, hands the
    manager a message that reaches the size threshold and then a small one:
    the size path clears the handle of the timer that fired and flushes, and
    the small message, starting a new cycle, arms timer 1 for it.  The
    callback then returns and clears the handle, which by now is that of
    timer 1: the cycle has a pending timer and no handle.  The next message
    joins the same cycle, finds no handle and arms timer 2.  Timer 1 fires
    and flushes the cycle; timer 2, armed in that same cycle, fires as well
    and calls the handler a second time, with an empty batch. *)
Lemma C4_two_timers_in_one_cycle :
  let cfg := sample_config (Some 10) (Some 50) None in
  let h := HBuffer (message 2 10) HReturn (HBuffer (message 3 1) HReturn HReturn) in
  let w2 := run [Deliver 7%nat (message 1 1) h; Fire 0%nat] (constructor cfg) in
  let w3 := exec (step (Deliver 7%nat (message 4 1) HReturn)) w2 in
  let w4 := exec (step (Fire 1%nat)) w3 in
  let w5 := exec (step (Fire 2%nat)) w4 in
  (array (unackedMessageList (this w2)) w2 = [message 3 1] /\
   map fst (timers w2) = [1%nat] /\
   timerHandle (this w2) = None) /\
  (unackedMessageList (this w3) = unackedMessageList (this w2) /\
   array (unackedMessageList (this w3)) w3 = [message 3 1; message 4 1] /\
   map fst (timers w3) = [1%nat; 2%nat]) /\
  (getMessageCount w4 = 0%nat /\
   map fst (timers w4) = [2%nat] /\
   map (fun i => (inv_totalSizeInBytes i, inv_messages i)) (invocations w4) =
     [(1, [message 1 1]); (10, [message 2 10]); (2, [message 3 1; message 4 1])]) /\
  (timers w5 = [] /\
   map (fun i => (inv_totalSizeInBytes i, inv_messages i)) (invocations w5) =
     [(1, [message 1 1]); (10, [message 2 10]); (2, [message 3 1; message 4 1]);
      (0, [])]).
Proof.
  vm_compute. repeat split.
Qed.

(** C8 does not hold of the code: the callback of the timer clears the
    handle after the flush, not before it.  A handler that hands a message
    to the manager while the flush of the timer is calling it finds the
    handle of the timer that fired still set: the message starts a new
    cycle, no timer is armed for it, and when the callback returns and
    clears the handle the cycle is left with a message and without a
    timer. *)
Lemma C8_counterexample :
  let cfg := sample_config None (Some 50) None in
  let h := HBuffer (message 2 1) HReturn HReturn in
  let w := exec (step (Deliver 7%nat (message 1 1) h)) (constructor cfg) in
  let w1 := exec (step (Fire 0%nat)) w in
  pending_timer 0%nat w = Some {| timeout_ms := 50; timeout_handler := h |} /\
  timerHandle (this (at_handler 7%nat (exec (clearTimeout 0%nat) w))) = Some 0%nat /\
  array (unackedMessageList (this w1)) w1 = [message 2 1] /\
  timers w1 = [] /\
  ~ cycle_has_timer w1.
Proof.
  cbv zeta. split; [reflexivity|]. split; [reflexivity|].
  split; [reflexivity|]. split; [reflexivity|].
  intros Hc. destruct Hc as (t & Ht & _).
  - unfold getMessageCount. simpl. lia.
  - reflexivity.
  - discriminate Ht.
Qed.

(** * Further properties of the code *)

(** ** The dispatcher *)

Lemma trace_full line w :
  exists w', trace line w = (Normal tt, w') /\ same_core w w' /\
    sink w' = sink w /\ traces w' = traces w ++ logged w [line].
Proof.
  unfold trace, bind, gets, logged.
  destruct (logger (this w)); eexists; repeat split.
  simpl. by rewrite app_nil_r.
Qed.

Lemma same_core_logged w w' lines : same_core w w' -> logged w' lines = logged w lines.
Proof. intros (_ & Ht & _). unfold logged. by rewrite Ht. Qed.

Lemma logged_app w l1 l2 : logged w l1 ++ logged w l2 = logged w (l1 ++ l2).
Proof. unfold logged. by destruct (logger (this w)). Qed.



(** ** What the channel receives from a flush *)

Lemma call_handler_script h channel w0 :
  no_reentry h = true ->
  forall w, exists w',
    call_handler h channel (flushed_batch channel w0) w =
      (match thrown h with Some e => Abrupt e | None => Normal tt end, w') /\
    same_core w w' /\
    sink w' = sink w ++
      handler_calls h channel (array (unackedMessageList (this w0)) w).
Proof.
  induction h as [|e|k IHk|requeue k IHk|msg h' IHh' k IHk]; simpl; intros Hno w.
  - exists w. rewrite app_nil_r. repeat split.
  - exists w. rewrite app_nil_r. repeat split.
  - unfold bind.
    destruct (ackMessageList_spec channel (unackedMessageList (this w0)) w)
      as (w1 & -> & Hc1 & Hs1).
    destruct (IHk Hno w1) as (w' & -> & Hc' & Hs').
    exists w'. split; [done|]. split; [eauto using same_core_trans|].
    rewrite Hs', Hs1, (same_core_array _ w w1) by done. by rewrite app_assoc.
  - unfold bind.
    destruct (nackMessageList_spec channel (unackedMessageList (this w0)) requeue w)
      as (w1 & -> & Hc1 & Hs1).
    destruct (IHk Hno w1) as (w' & -> & Hc' & Hs').
    exists w'. split; [done|]. split; [eauto using same_core_trans|].
    rewrite Hs', Hs1, (same_core_array _ w w1) by done. by rewrite app_assoc.
  - discriminate.
Qed.

Lemma at_handler_config channel w :
  config (this (at_handler channel w)) = config (this w).
Proof. by destruct (at_handler_sound channel w) as [[-> _ _ _ _] _]. Qed.

Lemma catch_block_safety_net channel r w :
  exists w', catch_block channel r w = (Normal tt, w') /\
    same_core w w' /\
    sink w' = sink w ++ safety_net w channel (array r w).
Proof.
  unfold catch_block, bind, gets, safety_net.
  destruct (negb _ && _).
  - destruct (nackMessageList_spec channel r None w) as (w' & -> & Hc & Hs).
    by exists w'.
  - exists w. rewrite app_nil_r. repeat split.
Qed.

Lemma sendBufferedMessages_calls (w : World) (channel : nat) (h : Handler) :
  no_reentry h = true ->
  let batch := array (unackedMessageList (this w)) w in
  let act := {| act_channel := channel; act_list := unackedMessageList (this w) |} in
  exists w',
    sendBufferedMessages channel h w =
      (Normal (match thrown h with Some _ => Done | None => Suspended act end), w') /\
    sink w' = sink w ++ handler_calls h channel batch ++
      match thrown h with
      | Some _ => safety_net w channel batch
      | None => []
      end /\
    awaiting w' = awaiting w ++
      match thrown h with Some _ => [] | None => [act] end.
Proof.
  intros Hno. cbv zeta.
  unfold sendBufferedMessages. rewrite sendBufferedMessages_with_eq.
  destruct (call_handler_script h channel w Hno (at_handler channel w))
    as (w2 & -> & Hc2 & Hs2).
  rewrite at_handler_array in Hs2.
  change (sink (at_handler channel w)) with (sink w) in Hs2.
  assert (Haw : awaiting w2 = awaiting w).
  { destruct Hc2 as (_ & _ & _ & _ & _ & -> & _). reflexivity. }
  destruct (thrown h) as [e|].
  - unfold bind.
    destruct (catch_block_safety_net channel (unackedMessageList (this w)) w2)
      as (w3 & -> & Hc3 & Hs3).
    exists w3. split; [done|]. split.
    + rewrite Hs3, Hs2, (same_core_array _ _ _ Hc2), at_handler_array.
      unfold safety_net.
      destruct Hc2 as (_ & -> & _). rewrite at_handler_config.
      by rewrite app_assoc.
    + destruct Hc3 as (_ & _ & _ & _ & _ & -> & _). by rewrite Haw, app_nil_r.
  - unfold await, bind, modify, ret. eexists. split; [reflexivity|]. simpl.
    split; [by rewrite Hs2, app_nil_r | by rewrite Haw].
Qed.


(** X3: What the channel receives from one flush, for a handler that does
    not call back into the manager.  First come the calls the handler makes
    itself through [ackAll] and [nackAll] of the batch.  If the handler
    returns its promise the manager adds nothing and waits; if the handler
    throws, the manager then nacks every message of the batch (unless
    [skipNackOnFail] is set or the batch is empty), without looking at what
    the handler already acknowledged: messages the handler acked before it
    threw are acked and then nacked. *)
Theorem X3_calls_of_a_flush (w : World) (channel : nat) (h : Handler) :
  no_reentry h = true ->
  let batch := array (unackedMessageList (this w)) w in
  let act := {| act_channel := channel; act_list := unackedMessageList (this w) |} in
  exists w',
    sendBufferedMessages channel h w =
      (Normal (match thrown h with Some _ => Done | None => Suspended act end), w') /\
    sink w' = sink w ++ handler_calls h channel batch ++
      match thrown h with
      | Some _ => safety_net w channel batch
      | None => []
      end /\
    awaiting w' = awaiting w ++
      match thrown h with Some _ => [] | None => [act] end.
Proof. apply sendBufferedMessages_calls. Qed.

(** The handler acknowledges the batch and then throws: two messages are
    acked and then nacked. *)
Lemma X3_calls_of_a_flush_witness :
  let w := run [Deliver 7%nat (message 1 4) HReturn;
                Deliver 7%nat (message 2 3) HReturn]
               (constructor (sample_config None None None)) in
  exists w',
    sendBufferedMessages 7%nat (HAckAll (HThrow (Error 1))) w = (Normal Done, w') /\
    sink w' = [Ack 7%nat (message 1 4); Ack 7%nat (message 2 3);
               Nack 7%nat (message 1 4) None; Nack 7%nat (message 2 3) None].
Proof.
  cbv zeta.
  set (w := run _ _).
  destruct (X3_calls_of_a_flush w 7%nat (HAckAll (HThrow (Error 1))) eq_refl)
    as (w' & Hsend & Hsink & _).
  exists w'. split; [exact Hsend|].
  rewrite Hsink. vm_compute. reflexivity.
Defined.

(** ** When the awaited promise settles *)

Lemma settle_eq i act settled w :
  awaiting w !! i = Some act ->
  exec (step (Settle i settled)) w =
  exec (resume_sendBufferedMessages act settled) (with_awaiting (delete i) w).
Proof.
  intros Ha. unfold exec, step. unfold bind at 1, gets at 1. rewrite Ha.
  unfold bind at 1, modify at 1, spawn, resume_handleMessageBuffering.
  destruct (resume_sendBufferedMessages_normal act settled
              (with_awaiting (delete i) w)) as [a Hn].
  by destruct (resume_sendBufferedMessages _ _ _) as [[a'|e] w1].
Qed.

(** X4: A flush and the settling of its handler's promise, end to end, for
    a handler that returns its promise and does not call back into the
    manager.  When the promise is fulfilled the manager does nothing at all:
    the channel has received only what the handler itself sent, so a handler
    that acknowledges nothing leaves the whole batch unacknowledged.  When
    the promise is rejected the manager nacks every message of the batch
    (unless [skipNackOnFail] is set or the batch is empty).  Either way the
    activation is no longer waiting. *)
Theorem X4_settling_the_promise (w : World) (channel : nat) (h : Handler)
    (settled : Completion unit) :
  no_reentry h = true ->
  thrown h = None ->
  let batch := array (unackedMessageList (this w)) w in
  let w1 := exec (sendBufferedMessages channel h) w in
  let w2 := exec (step (Settle (length (awaiting w)) settled)) w1 in
  sink w2 = sink w ++ handler_calls h channel batch ++
    match settled with
    | Normal _ => []
    | Abrupt _ => safety_net w channel batch
    end /\
  awaiting w2 = awaiting w /\
  (settled = Normal tt -> traces w2 = traces w1).
Proof.
  intros Hno Hret. cbv zeta.
  destruct (sendBufferedMessages_calls w channel h Hno) as (w1 & Hsend & Hsink & Haw).
  pose proof (flush_quiet channel h w Hno) as Hq.
  rewrite Hret in *.
  assert (E1 : exec (sendBufferedMessages channel h) w = w1)
    by (unfold exec; by rewrite Hsend).
  rewrite E1. rewrite Hsend in Hq. simpl snd in Hq.
  set (act := {| act_channel := channel; act_list := unackedMessageList (this w) |}) in *.
  assert (Hl : awaiting w1 !! length (awaiting w) = Some act).
  { rewrite Haw. by rewrite list_lookup_middle. }
  rewrite (settle_eq _ _ _ _ Hl).
  assert (Hd : delete (length (awaiting w)) (awaiting w1) = awaiting w).
  { rewrite Haw. rewrite delete_middle. by rewrite app_nil_r. }
  set (w1' := with_awaiting (delete (length (awaiting w))) w1).
  unfold exec, resume_sendBufferedMessages, try_catch.
  destruct settled as [[]|e]; simpl.
  - split; [by rewrite Hsink|]. split; [exact Hd | done].
  - destruct (catch_block_safety_net channel (unackedMessageList (this w)) w1')
      as (w3 & -> & Hc3 & Hs3).
    simpl. split; [|split].
    + rewrite Hs3. change (sink w1') with (sink w1). rewrite Hsink.
      rewrite <- !app_assoc. do 2 f_equal.
      unfold safety_net.
      change (config (this w1')) with (config (this w1)).
      change (array ?r w1') with (array r w1).
      rewrite (store_same_array _ _ _ Hq), at_handler_array.
      destruct Hq as (_ & _ & _ & -> & _). by rewrite at_handler_config.
    + destruct Hc3 as (_ & _ & _ & _ & _ & -> & _). exact Hd.
    + discriminate.
Qed.

(** A handler that acknowledges nothing, and whose promise is fulfilled:
    the channel has received nothing, nobody is waiting. *)
Lemma X4_settling_the_promise_witness :
  let w := run [Deliver 7%nat (message 1 4) HReturn;
                Deliver 7%nat (message 2 3) HReturn]
               (constructor (sample_config None None None)) in
  let w2 := exec (step (Settle 0%nat (Normal tt)))
              (exec (sendBufferedMessages 7%nat HReturn) w) in
  sink w2 = [] /\ awaiting w2 = [].
Proof.
  cbv zeta.
  set (w := run _ _).
  destruct (X4_settling_the_promise w 7%nat HReturn (Normal tt) eq_refl eq_refl)
    as (Hsink & Haw & _).
  split; [exact Hsink | exact Haw].
Defined.

(** ** A flush with nothing buffered *)

Lemma catch_block_empty channel r w :
  array r w = [] -> catch_block channel r w = (Normal tt, w).
Proof.
  intros Ha. unfold catch_block, bind, gets. rewrite Ha. simpl.
  by rewrite andb_false_r.
Qed.

(** X5: [sendBufferedMessages] called while nothing is buffered still calls
    the handler, with an empty list of messages.  If that handler fails, by
    throwing or by a rejection that arrives after any further events, the
    manager nacks nothing and does not even write the trace lines of
    [nackMessageList], whatever [skipNackOnFail] says: the world is the one
    the handler left. *)
Theorem X5_flush_of_an_empty_buffer (w : World) (channel : nat) (h : Handler) :
  wf w ->
  array (unackedMessageList (this w)) w = [] ->
  invocations (at_handler channel w) = invocations w ++
    [{| inv_channel := channel; inv_totalSizeInBytes := bufferSize (this w);
        inv_ref := unackedMessageList (this w); inv_messages := [] |}] /\
  (forall e w2,
     call_handler h channel (flushed_batch channel w) (at_handler channel w)
       = (Abrupt e, w2) ->
     sendBufferedMessages channel h w = (Normal Done, w2)) /\
  (forall act w1 evs e,
     sendBufferedMessages channel h w = (Normal (Suspended act), w1) ->
     resume_sendBufferedMessages act (Abrupt e) (run evs w1)
       = (Normal tt, run evs w1)).
Proof.
  intros Hwf Hempty. split; [|split].
  - by rewrite at_handler_invocations, Hempty.
  - intros e w2 Hcall.
    unfold sendBufferedMessages. rewrite sendBufferedMessages_with_eq, Hcall.
    destruct (call_handler_flushed_sound h channel w (at_handler channel w)) as [Hf _].
    rewrite Hcall in Hf. cbn [snd] in Hf.
    destruct (detached_stable channel w w2 Hwf Hf) as (Ha & _ & _).
    unfold bind. rewrite catch_block_empty; [done | by rewrite Ha].
  - intros act w1 evs e Hsend.
    pose proof (sendBufferedMessages_suspended _ _ _ _ _ Hsend) as ->.
    pose proof (sendBufferedMessages_frame channel h w) as Hf.
    rewrite Hsend in Hf. cbn [snd] in Hf.
    destruct (run_sound evs w1) as [Hf' _].
    destruct (detached_stable channel w (run evs w1) Hwf) as (Ha & _ & _).
    { eapply frame_trans; eauto. }
    unfold resume_sendBufferedMessages, try_catch, throw. cbn [act_channel act_list].
    rewrite catch_block_empty; [done | by rewrite Ha].
Qed.

(** On a new manager with a logger, a flush whose handler throws: the
    handler was called with no messages, the channel and the log received
    nothing. *)
Lemma X5_flush_of_an_empty_buffer_witness :
  let cfg := {| providers := {| providers_logger := Some 1%nat |};
                maxSizeBytes := None; maxTimeMs := None;
                skipNackOnFail := Some false |} in
  let w' := exec (sendBufferedMessages 7%nat (HThrow (Error 1))) (constructor cfg) in
  map inv_messages (invocations w') = [[]] /\ sink w' = [] /\ traces w' = [].
Proof.
  cbv zeta.
  set (cfg := {| providers := _; maxSizeBytes := _; maxTimeMs := _;
                 skipNackOnFail := _ |}).
  assert (Hwf : wf (constructor cfg)) by (unfold wf; simpl; lia).
  destruct (X5_flush_of_an_empty_buffer (constructor cfg) 7%nat (HThrow (Error 1))
              Hwf eq_refl) as (_ & Hthrow & _).
  unfold exec.
  rewrite (Hthrow (Error 1) (at_handler 7%nat (constructor cfg)) eq_refl).
  vm_compute. repeat split.
Defined.

(** ** Without thresholds *)

Lemma size_not_reached w size :
  truthy (maxSizeBytes (config (this w))) = false -> size_reached w size = false.
Proof. intros H. unfold size_reached. by rewrite H. Qed.

Lemma unbounded_deliveries ds : forall w,
  wf w ->
  truthy (maxSizeBytes (config (this w))) = false ->
  let w' := run (map deliver ds) w in
  invocations w' = invocations w /\
  unackedMessageList (this w') = unackedMessageList (this w) /\
  array (unackedMessageList (this w)) w' =
    array (unackedMessageList (this w)) w ++ map msg_of ds /\
  bufferSize (this w') = bufferSize (this w) + total (map msg_of ds).
Proof.
  induction ds as [|[[channel msg] h] ds IH]; intros w Hwf Hmax; cbv zeta.
  - simpl. rewrite app_nil_r. repeat split; lia.
  - change (run (map deliver ((channel, msg, h) :: ds)) w)
      with (run (map deliver ds) (exec (step (Deliver channel msg h)) w)).
    change (map msg_of ((channel, msg, h) :: ds)) with (msg :: map msg_of ds).
    set (w1 := exec (step (Deliver channel msg h)) w).
    destruct (deliver_below channel msg h w Hwf (size_not_reached w _ Hmax))
      as (Hwf1 & Hl & Ha & Hb & Hc & Hi).
    fold w1 in Hwf1, Hl, Ha, Hb, Hc, Hi.
    destruct (IH w1 Hwf1) as (Hi' & Hl' & Ha' & Hb'); [by rewrite Hc|].
    rewrite Hl in Ha'. rewrite Hi', Hl', Ha', Hb', Hi, Hl, Ha, Hb.
    rewrite <- app_assoc. simpl. repeat split; lia.
Qed.

Lemma settle_nobody_waiting i settled w :
  awaiting w = [] -> exec (step (Settle i settled)) w = w.
Proof.
  intros Ha. unfold exec, step, bind, gets. rewrite Ha. by rewrite lookup_nil.
Qed.

Lemma fire_no_timers t w : timers w = [] -> exec (step (Fire t)) w = w.
Proof.
  intros Ht. apply fire_not_pending. unfold pending_timer. by rewrite Ht.
Qed.

Lemma idle_run evs : forall w,
  wf w ->
  truthy (maxSizeBytes (config (this w))) = false ->
  truthy (maxTimeMs (config (this w))) = false ->
  timers w = [] ->
  awaiting w = [] ->
  let w' := run evs w in
  timers w' = [] /\ awaiting w' = [] /\
  invocations w' = invocations w /\ sink w' = sink w /\
  unackedMessageList (this w') = unackedMessageList (this w) /\
  array (unackedMessageList (this w)) w' =
    array (unackedMessageList (this w)) w ++ delivered evs /\
  bufferSize (this w') = bufferSize (this w) + total (delivered evs).
Proof.
  induction evs as [|ev evs IH]; intros w Hwf Hmax Htime Ht Ha; cbv zeta.
  - simpl. rewrite app_nil_r. repeat split; [done | done | lia].
  - change (run (ev :: evs) w) with (run evs (exec (step ev) w)).
    destruct ev as [channel msg h|t|i settled].
    + rewrite deliver_no_flush by (by apply size_not_reached).
      rewrite Htime.
      destruct (buffered_facts channel msg w Hwf) as (Hwfb & Hlb & Hab & Hbb & Hcb & Hib).
      destruct (IH (buffered channel msg w)) as (Ht' & Ha' & Hi' & Hs' & Hl' & Har' & Hb');
        [done | by rewrite Hcb | by rewrite Hcb | done | done |].
      rewrite Hlb in Har'. rewrite Ht', Ha', Hi', Hs', Hl', Har', Hb', Hlb, Hab, Hbb, Hib.
      simpl. rewrite <- app_assoc. simpl. repeat split; lia.
    + rewrite fire_no_timers by done. by apply IH.
    + rewrite settle_nobody_waiting by done. by apply IH.
Qed.

(** X6: A zero or absent [maxSizeBytes] is no threshold: however many
    messages are delivered, and however large, none of the calls flushes;
    the buffer holds them all, in order.  With [maxTimeMs] zero or absent as
    well, nothing is ever flushed: whatever events occur, the handler is
    never called, no timer is ever set, the channel receives nothing, and
    the buffer holds every message delivered so far. *)
Theorem X6_without_thresholds (cfg : IMessageBatchingManagerConfig) :
  truthy (maxSizeBytes cfg) = false ->
  (forall ds,
     let w := run (map deliver ds) (constructor cfg) in
     invocations w = [] /\
     array (unackedMessageList (this w)) w = map msg_of ds /\
     getBufferSize w = total (map msg_of ds)) /\
  (truthy (maxTimeMs cfg) = false ->
   forall evs,
     let w := run evs (constructor cfg) in
     invocations w = [] /\ timers w = [] /\ sink w = [] /\
     array (unackedMessageList (this w)) w = delivered evs /\
     getBufferSize w = total (delivered evs)).
Proof.
  intros Hmax.
  assert (Hwf : wf (constructor cfg)) by (unfold wf; simpl; lia).
  split.
  - intros ds. cbv zeta.
    destruct (unbounded_deliveries ds (constructor cfg) Hwf Hmax) as (Hi & Hl & Ha & Hb).
    unfold getBufferSize. rewrite Hi, Hl, Ha, Hb. repeat split; simpl; lia.
  - intros Htime evs. cbv zeta.
    destruct (idle_run evs (constructor cfg) Hwf Hmax Htime eq_refl eq_refl)
      as (Ht & _ & Hi & Hs & Hl & Ha & Hb).
    unfold getBufferSize. rewrite Ht, Hi, Hs, Hl, Ha, Hb.
    repeat split; simpl; lia.
Qed.

(** A threshold of 0 bytes and no time limit: two deliveries, a timer event
    and a settling event leave both messages in the buffer. *)
Lemma X6_without_thresholds_witness :
  let w := run [Deliver 7%nat (message 1 4) HReturn; Fire 0%nat;
                Deliver 7%nat (message 2 3) (HThrow (Error 1));
                Settle 0%nat (Normal tt)]
               (constructor (sample_config (Some 0) None None)) in
  invocations w = [] /\ getMessageCount w = 2%nat /\ getBufferSize w = 7.
Proof.
  cbv zeta.
  destruct (X6_without_thresholds (sample_config (Some 0) None None) eq_refl)
    as [_ Hidle].
  destruct (Hidle eq_refl
              [Deliver 7%nat (message 1 4) HReturn; Fire 0%nat;
               Deliver 7%nat (message 2 3) (HThrow (Error 1));
               Settle 0%nat (Normal tt)])
    as (Hi & _ & _ & Ha & Hb).
  split; [exact Hi|]. split; [|exact Hb].
  unfold getMessageCount. rewrite Ha. reflexivity.
Defined.

(** ** The timer path *)

Lemma size_reached_mono w a b :
  b <= a -> size_reached w a = false -> size_reached w b = false.
Proof.
  unfold size_reached, geq. intros Hle.
  destruct (maxSizeBytes (config (this w))) as [N|]; [|done].
  destruct (truthy (Some N)); [|done]. simpl.
  rewrite !Z.leb_gt. lia.
Qed.

Lemma find_app_none {A} (f : A -> bool) (l : list A) (x : A) :
  List.find f l = None -> f x = true -> List.find f (l ++ [x]) = Some x.
Proof.
  induction l as [|y l IH]; simpl; intros Hn Hx; [by rewrite Hx|].
  destruct (f y); [done | auto].
Qed.

Lemma filter_find_none {A} (f : A -> bool) (l : list A) :
  List.find f l = None -> List.filter (fun x => negb (f x)) l = l.
Proof.
  induction l as [|y l IH]; simpl; intros Hn; [done|].
  destruct (f y); [done|]. simpl. by rewrite IH.
Qed.

Lemma pending_timer_find t w :
  pending_timer t w = None ->
  List.find (fun p : nat * Timeout => Nat.eqb (fst p) t) (timers w) = None.
Proof. unfold pending_timer. by destruct (List.find _ _). Qed.

Lemma last_default {A} (l : list A) (x d d' : A) :
  List.last (x :: l) d = List.last (x :: l) d'.
Proof.
  revert x. induction l as [|y l IH]; intros x; [done|].
  change (List.last (y :: l) d = List.last (y :: l) d'). apply IH.
Qed.

Lemma last_cons {A} (l : list A) (x d : A) :
  List.last (x :: l) d = List.last l x.
Proof.
  destruct l as [|y l]; [done|].
  change (List.last (y :: l) d = List.last (y :: l) x). apply last_default.
Qed.

(** A delivery below the size threshold while a timer is armed only buffers
    the message and records the channel. *)
Lemma deliver_armed channel msg h t w :
  timerHandle (this w) = Some t ->
  size_reached w (bufferSize (this w) + byteLength (content msg)) = false ->
  exec (step (Deliver channel msg h)) w = buffered channel msg w.
Proof.
  intros Ht Hs. rewrite deliver_no_flush by exact Hs.
  unfold arm_timer.
  change (timerHandle (this (buffered channel msg w))) with (timerHandle (this w)).
  rewrite Ht. by destruct (truthy _).
Qed.

Lemma armed_deliveries t ds : forall w d0,
  wf w ->
  timerHandle (this w) = Some t ->
  the_channel w = fst (fst d0) ->
  size_reached w (bufferSize (this w) + total (map msg_of ds)) = false ->
  let w' := run (map deliver ds) w in
  wf w' /\
  timerHandle (this w') = Some t /\ timers w' = timers w /\
  the_channel w' = fst (fst (List.last ds d0)) /\
  invocations w' = invocations w /\
  config (this w') = config (this w) /\
  unackedMessageList (this w') = unackedMessageList (this w) /\
  array (unackedMessageList (this w)) w' =
    array (unackedMessageList (this w)) w ++ map msg_of ds /\
  bufferSize (this w') = bufferSize (this w) + total (map msg_of ds).
Proof.
  induction ds as [|[[channel msg] h] ds IH]; intros w d0 Hwf Ht Hch Hs; cbv zeta.
  - simpl. rewrite app_nil_r. repeat split; [done | done | done | lia].
  - change (run (map deliver ((channel, msg, h) :: ds)) w)
      with (run (map deliver ds) (exec (step (Deliver channel msg h)) w)).
    change (map msg_of ((channel, msg, h) :: ds)) with (msg :: map msg_of ds) in *.
    simpl in Hs.
    pose proof (total_nonneg (map msg_of ds)) as Hnn.
    rewrite (deliver_armed channel msg h t w Ht)
      by (eapply size_reached_mono; [|exact Hs]; lia).
    destruct (buffered_facts channel msg w Hwf) as (Hwfb & Hlb & Hab & Hbb & Hcb & Hib).
    set (wb := buffered channel msg w) in *.
    destruct (IH wb (channel, msg, h)) as (Hwf' & Ht' & Htm' & Hch' & Hi' & Hc' & Hl' & Ha' & Hb');
      [done | done | done | |].
    { unfold size_reached in *. rewrite Hcb, Hbb.
      by replace (bufferSize (this w) + byteLength (content msg) + total (map msg_of ds))
        with (bufferSize (this w) + (byteLength (content msg) + total (map msg_of ds)))
        by lia. }
    rewrite Hlb in Ha'.
    rewrite last_cons, Ht', Htm', Hch', Hi', Hc', Hl', Ha', Hb', Hlb, Hab, Hbb, Hcb, Hib.
    simpl. rewrite <- app_assoc. simpl. repeat split; [done | lia].
Qed.

(** With a handler that does not call back, a flush leaves the timers
    alone. *)
Lemma flush_quiet_timers channel h w :
  no_reentry h = true ->
  let w' := snd (sendBufferedMessages channel h w) in
  timers w' = timers w /\ timerHandle (this w') = timerHandle (this w) /\
  nextTimer w' = nextTimer w /\ amqpChannel (this w') = amqpChannel (this w).
Proof.
  intros Hno. cbv zeta.
  unfold sendBufferedMessages. rewrite sendBufferedMessages_with_eq.
  destruct (call_handler_script h channel w Hno (at_handler channel w))
    as (w2 & -> & (_ & Hth & Htm & Hnt & _) & _).
  assert (H2 : timers w2 = timers w /\ timerHandle (this w2) = timerHandle (this w) /\
               nextTimer w2 = nextTimer w /\ amqpChannel (this w2) = amqpChannel (this w)).
  { rewrite Htm, Hth, Hnt. repeat split. }
  destruct (thrown h) as [e|].
  - unfold bind.
    pose proof (catch_block_same_core channel (unackedMessageList (this w)) w2) as Hc.
    destruct (catch_block _ _ _) as [[[]|e'] w3];
      destruct Hc as (_ & Hth3 & Htm3 & Hnt3 & _); simpl in *;
      by rewrite Hth3, Htm3, Hnt3.
  - exact H2.
Qed.

(** X7: The time-triggered flush.  With [maxTimeMs] configured and no timer
    armed, let deliveries [d1 :: ds] arrive that stay below the size
    threshold.  The first delivery arms one timer, with delay [maxTimeMs] and
    with the handler of that first call; the later deliveries neither arm
    another timer nor touch this one, and none of them calls a handler.  When
    the timer fires, the callback starts the flush with the handler of the
    first delivery, on the channel of the last delivery, and then clears the
    handle.  That flush hands over the batch [batch]: whatever calling the
    handler does, [sendBufferedMessages] is that call, made on [batch] in
    the world [at_handler c wc], followed by what it does with the call's
    outcome; [batch] holds every message buffered so far, in order, and
    their byte total.  Unless that handler calls back into the manager, the
    callback leaves the store empty, no timer armed and no timer pending
    that was not pending before. *)
Theorem X7_timed_flush (w : World)
    (d1 : nat * ConsumeMessage * Handler)
    (ds : list (nat * ConsumeMessage * Handler)) :
  wf w ->
  timerHandle (this w) = None ->
  pending_timer (nextTimer w) w = None ->
  truthy (maxTimeMs (config (this w))) = true ->
  size_reached w (bufferSize (this w) + total (map msg_of (d1 :: ds))) = false ->
  let t := nextTimer w in
  let w1 := run (map deliver (d1 :: ds)) w in
  let c := last_channel d1 ds in
  let wc := exec (clearTimeout t) w1 in
  let batch := flushed_batch c wc in
  let call :=
    {| inv_channel := last_channel d1 ds;
       inv_totalSizeInBytes := bufferSize (this w) + total (map msg_of (d1 :: ds));
       inv_ref := unackedMessageList (this w);
       inv_messages :=
         array (unackedMessageList (this w)) w ++ map msg_of (d1 :: ds) |} in
  (forall handler,
     sendBufferedMessages_with handler c wc =
     match handler c batch (at_handler c wc) with
     | (Normal _, w2) =>
         await {| act_channel := c; act_list := unackedMessageList (this w) |} w2
     | (Abrupt e, w2) =>
         (catch_block c (unackedMessageList (this w)) ;; ret Done) w2
     end) /\
  totalSizeInBytes batch = bufferSize (this w) + total (map msg_of (d1 :: ds)) /\
  messages batch = unackedMessageList (this w) /\
  array (messages batch) (at_handler c wc) =
    array (unackedMessageList (this w)) w ++ map msg_of (d1 :: ds) /\
  timerHandle (this w1) = Some t /\
  timers w1 = timers w ++
    [(t, {| timeout_ms := default 0 (maxTimeMs (config (this w)));
            timeout_handler := snd d1 |})] /\
  invocations w1 = invocations w /\
  exec (step (Fire t)) w1 =
    with_this (set_timerHandle None)
      (exec (sendBufferedMessages (last_channel d1 ds) (snd d1))
         (exec (clearTimeout t) w1)) /\
  invocations (at_handler (last_channel d1 ds) (exec (clearTimeout t) w1)) =
    invocations w ++ [call] /\
  (no_reentry (snd d1) = true ->
     let w2 := exec (step (Fire t)) w1 in
     invocations w2 = invocations w ++ [call] /\
     getMessageCount w2 = 0%nat /\
     getBufferSize w2 = 0 /\
     timerHandle (this w2) = None /\
     timers w2 = timers w).
Proof.
  destruct d1 as [[c1 m1] h1].
  intros Hwf Hnone Hfresh Htime Hs. cbv zeta.
  change (run (map deliver ((c1, m1, h1) :: ds)) w)
    with (run (map deliver ds) (exec (step (Deliver c1 m1 h1)) w)).
  change (map msg_of ((c1, m1, h1) :: ds)) with (m1 :: map msg_of ds) in *.
  simpl total in *. simpl snd.
  pose proof (total_nonneg (map msg_of ds)) as Hnn.
  (* the first delivery arms the timer *)
  assert (Hs1 : size_reached w (bufferSize (this w) + byteLength (content m1)) = false)
    by (eapply size_reached_mono; [|exact Hs]; lia).
  rewrite (deliver_no_flush c1 m1 h1 w Hs1), Htime.
  destruct (buffered_facts c1 m1 w Hwf) as (Hwfb & Hlb & Hab & Hbb & Hcb & Hib).
  set (wb := buffered c1 m1 w) in *.
  pose proof (arm_timer_store_same h1 wb) as Hsame.
  pose proof (store_same_array (unackedMessageList (this w)) _ _ Hsame) as Haa.
  pose proof (store_same_wf _ _ Hsame Hwfb) as Hwfa.
  destruct Hsame as (_ & Hla & Hba & Hca & Hia & _).
  assert (Harm : timerHandle (this (arm_timer h1 wb)) = Some (nextTimer w) /\
                 timers (arm_timer h1 wb) = timers w ++
                   [(nextTimer w,
                     {| timeout_ms := default 0 (maxTimeMs (config (this w)));
                        timeout_handler := h1 |})] /\
                 the_channel (arm_timer h1 wb) = c1).
  { unfold arm_timer.
    change (timerHandle (this wb)) with (timerHandle (this w)). rewrite Hnone.
    repeat split. }
  destruct Harm as (Hta & Htma & Hcha).
  set (wa := arm_timer h1 wb) in *.
  (* the others only buffer *)
  destruct (armed_deliveries (nextTimer w) ds wa (c1, m1, h1))
    as (Hwf1 & Ht1 & Htm1 & Hch1 & Hi1 & Hc1 & Hl1 & Ha1 & Hb1);
    [done | done | done | |].
  { unfold size_reached in *. rewrite Hca, Hcb, Hba, Hbb.
    by replace (bufferSize (this w) + byteLength (content m1) + total (map msg_of ds))
      with (bufferSize (this w) + (byteLength (content m1) + total (map msg_of ds)))
      by lia. }
  set (w1 := run (map deliver ds) wa) in *.
  fold (last_channel (c1, m1, h1) ds) in Hch1.
  set (c := last_channel (c1, m1, h1) ds) in *.
  rewrite Hla, Hlb in Hl1, Ha1. rewrite Haa, Hab in Ha1. rewrite Hba, Hbb in Hb1.
  rewrite Htma in Htm1. rewrite Hia, Hib in Hi1.
  rewrite <- app_assoc in Ha1. simpl in Ha1.
  (* the timer fires *)
  assert (Hp : pending_timer (nextTimer w) w1 =
               Some {| timeout_ms := default 0 (maxTimeMs (config (this w)));
                       timeout_handler := h1 |}).
  { unfold pending_timer. rewrite Htm1.
    rewrite (find_app_none _ _ _ (pending_timer_find _ _ Hfresh)); [done|].
    simpl. apply Nat.eqb_refl. }
  pose proof (fire_eq _ _ _ Hp) as Hfire. rewrite Hch1 in Hfire.
  cbn [timeout_handler] in Hfire.
  set (wc := exec (clearTimeout (nextTimer w)) w1) in *.
  assert (Hwc : timers wc = timers w).
  { subst wc. unfold exec, clearTimeout, modify. simpl. rewrite Htm1.
    rewrite List.filter_app. simpl. rewrite Nat.eqb_refl. simpl.
    rewrite (filter_find_none _ _ (pending_timer_find _ _ Hfresh)).
    by rewrite app_nil_r. }
  assert (Hinv : invocations (at_handler c wc) = invocations w ++
            [{| inv_channel := c;
                inv_totalSizeInBytes :=
                  bufferSize (this w) + (byteLength (content m1) + total (map msg_of ds));
                inv_ref := unackedMessageList (this w);
                inv_messages :=
                  array (unackedMessageList (this w)) w ++ m1 :: map msg_of ds |}]).
  { rewrite at_handler_invocations.
    change (invocations wc) with (invocations w1).
    change (bufferSize (this wc)) with (bufferSize (this w1)).
    change (unackedMessageList (this wc)) with (unackedMessageList (this w1)).
    change (array ?r wc) with (array r w1).
    rewrite Hi1, Hb1, Hl1, Ha1. do 3 f_equal. lia. }
  split.
  { intros handler. rewrite sendBufferedMessages_with_eq.
    change (unackedMessageList (this wc)) with (unackedMessageList (this w1)).
    by rewrite Hl1. }
  split.
  { change (totalSizeInBytes (flushed_batch c wc)) with (bufferSize (this w1)).
    rewrite Hb1. lia. }
  split; [exact Hl1|].
  split.
  { change (messages (flushed_batch c wc)) with (unackedMessageList (this w1)).
    rewrite at_handler_array, Hl1.
    change (array ?r wc) with (array r w1). exact Ha1. }
  split; [exact Ht1|]. split; [exact Htm1|]. split; [exact Hi1|].
  split; [exact Hfire|]. split; [exact Hinv|].
  intros Hno. rewrite Hfire.
  pose proof (flush_quiet c h1 wc Hno) as Hq.
  destruct (store_same_count _ _ Hq) as [Hqc Hqb].
  destruct (at_handler_store c wc) as [Hc0 Hb0].
  destruct (flush_quiet_timers c h1 wc Hno) as (Hqt & _).
  destruct Hq as (_ & _ & _ & _ & Hqi & _).
  unfold exec at 1 2 3 5.
  change (invocations (with_this ?f ?x)) with (invocations x).
  change (getMessageCount (with_this (set_timerHandle None) ?x)) with (getMessageCount x).
  change (getBufferSize (with_this (set_timerHandle None) ?x)) with (getBufferSize x).
  change (timers (with_this ?f ?x)) with (timers x).
  rewrite Hqi, Hinv, Hqc, Hc0, Hqb, Hb0, Hqt, Hwc. repeat split.
Qed.

(** A time limit of 50 ms; a first message arrives on channel 7 with a
    handler that acknowledges, a second on channel 8 with another handler.
    When the timer fires, the first handler is called on channel 8 with both
    messages. *)
Lemma X7_timed_flush_witness :
  let w := constructor (sample_config None (Some 50) None) in
  let w1 := run [Deliver 7%nat (message 1 4) (HAckAll HReturn);
                 Deliver 8%nat (message 2 3) (HThrow (Error 1))] w in
  let w2 := exec (step (Fire 0%nat)) w1 in
  timers w1 = [(0%nat, {| timeout_ms := 50; timeout_handler := HAckAll HReturn |})] /\
  invocations w2 =
    [{| inv_channel := 8%nat; inv_totalSizeInBytes := 7; inv_ref := 1%nat;
        inv_messages := [message 1 4; message 2 3] |}] /\
  getMessageCount w2 = 0%nat /\
  timers w2 = [].
Proof.
  cbv zeta.
  set (w := constructor (sample_config None (Some 50) None)).
  assert (Hwf : wf w) by (unfold wf; simpl; lia).
  destruct (X7_timed_flush w (7%nat, message 1 4, HAckAll HReturn)
              [(8%nat, message 2 3, HThrow (Error 1))]
              Hwf eq_refl eq_refl eq_refl eq_refl)
    as (_ & _ & _ & _ & _ & Htm & _ & _ & _ & Hend).
  destruct (Hend eq_refl) as (Hi & Hc & _ & _ & Ht).
  split; [exact Htm|]. split; [exact Hi|]. split; [exact Hc | exact Ht].
Defined.

(** ** One timer at most, and never an empty batch *)

Lemma at_handler_wf channel w : wf (at_handler channel w).
Proof.
  unfold wf, at_handler, exec. rewrite finalizeMessages_eq. simpl.
  rewrite length_app. simpl. lia.
Qed.

Lemma quiet_inv_ext w w' :
  heap w' = heap w -> this w' = this w -> timers w' = timers w ->
  invocations w' = invocations w -> quiet_inv w -> quiet_inv w'.
Proof.
  intros Hh Ht Htm Hi (Hwf & Htv & Hne).
  unfold quiet_inv, wf, timer_inv, array in *. by rewrite Hh, Ht, Htm, Hi.
Qed.

(** A flush by a handler that does not call back, started with no timer
    pending and a buffer that is not empty. *)
Lemma quiet_flush_facts channel h w :
  no_reentry h = true ->
  timers w = [] ->
  array (unackedMessageList (this w)) w <> [] ->
  Forall (fun i => inv_messages i <> []) (invocations w) ->
  let w' := snd (sendBufferedMessages channel h w) in
  wf w' /\ timers w' = [] /\
  timerHandle (this w') = timerHandle (this w) /\
  Forall (fun i => inv_messages i <> []) (invocations w').
Proof.
  intros Hno Htm Hne Hall. cbv zeta.
  pose proof (flush_quiet channel h w Hno) as Hq.
  destruct (flush_quiet_timers channel h w Hno) as (Hqt & Hqh & _).
  pose proof (store_same_wf _ _ Hq (at_handler_wf channel w)) as Hwf'.
  destruct Hq as (_ & _ & _ & _ & Hqi & _).
  split; [done|]. split; [congruence|]. split; [done|].
  rewrite Hqi, at_handler_invocations. apply Forall_app. split; [done|].
  by apply Forall_singleton.
Qed.

Lemma quiet_deliver channel msg h w :
  no_reentry h = true -> quiet_inv w ->
  quiet_inv (exec (step (Deliver channel msg h)) w).
Proof.
  intros Hno (Hwf & Htv & Hall).
  destruct (buffered_facts channel msg w Hwf) as (Hwfb & Hlb & Hab & Hbb & Hcb & Hib).
  set (wb := buffered channel msg w) in *.
  assert (Hne : array (unackedMessageList (this wb)) wb <> []).
  { rewrite Hlb, Hab. by destruct (array _ w). }
  destruct (size_reached wb (bufferSize (this wb))) eqn:Hs.
  - rewrite deliver_flush by exact Hs. fold wb.
    pose proof (cancel_timer_store_same wb) as Hcs.
    pose proof (store_same_array (unackedMessageList (this wb)) _ _ Hcs) as Hac.
    destruct Hcs as (_ & Hlc & _ & _ & Hic & _).
    assert (Hnone : timerHandle (this (cancel_timer wb)) = None).
    { unfold cancel_timer. by destruct (timerHandle (this wb)) eqn:E. }
    destruct (quiet_flush_facts channel h (cancel_timer wb))
      as (Hwf' & Htm' & Hth' & Hall'); [done| | | |].
    4: { split; [done|]. split; [|done].
         unfold timer_inv. by rewrite Hth', Hnone. }
    + unfold cancel_timer. unfold timer_inv in Htv.
      change (timerHandle (this wb)) with (timerHandle (this w)).
      destruct (timerHandle (this w)) as [t|]; [|exact Htv].
      destruct Htv as (tm & Htm & _). simpl.
      change (timers wb) with (timers w). rewrite Htm. simpl.
      by rewrite Nat.eqb_refl.
    + by rewrite Hlc, Hac.
    + by rewrite Hic, Hib.
  - rewrite deliver_no_flush by exact Hs. fold wb.
    assert (Hkeep : quiet_inv wb \/ timerHandle (this w) = None).
    { unfold timer_inv in Htv.
      destruct (timerHandle (this w)) as [t|] eqn:Ht; [left | by right].
      split; [done|]. split; [|by rewrite Hib].
      unfold timer_inv.
      change (timerHandle (this wb)) with (timerHandle (this w)). rewrite Ht.
      destruct Htv as (tm & Htm & Hq & _). exists tm. by repeat split. }
    destruct (truthy (maxTimeMs (config (this w)))).
    + unfold arm_timer.
      change (timerHandle (this wb)) with (timerHandle (this w)).
      destruct (timerHandle (this w)) as [t|] eqn:Ht.
      * by destruct Hkeep.
      * unfold timer_inv in Htv. rewrite Ht in Htv.
        split; [|split].
        -- unfold wf in *. exact Hwfb.
        -- unfold timer_inv. simpl. eexists. change (timers wb) with (timers w).
           rewrite Htv. split; [reflexivity|]. split; [exact Hno|]. exact Hne.
        -- change (Forall (fun i => inv_messages i <> []) (invocations wb)).
           by rewrite Hib.
    + destruct Hkeep as [Hk|Ht]; [done|].
      split; [done|]. split; [|by rewrite Hib].
      unfold timer_inv in *.
      change (timerHandle (this wb)) with (timerHandle (this w)).
      by rewrite Ht in *.
Qed.

Lemma quiet_fire t w : quiet_inv w -> quiet_inv (exec (step (Fire t)) w).
Proof.
  intros (Hwf & Htv & Hall).
  destruct (pending_timer t w) as [tm|] eqn:Hp; [|by rewrite fire_not_pending].
  rewrite (fire_eq t tm w Hp).
  unfold timer_inv in Htv.
  destruct (timerHandle (this w)) as [t0|] eqn:Ht.
  - destruct Htv as (tm0 & Htm0 & Hq0 & Hne).
    assert (t = t0 /\ tm = tm0) as [-> ->].
    { unfold pending_timer in Hp. rewrite Htm0 in Hp. simpl in Hp.
      destruct (Nat.eqb t0 t) eqn:He; [|done].
      apply Nat.eqb_eq in He. by injection Hp as ->. }
    set (wc := exec (clearTimeout t0) w).
    destruct (quiet_flush_facts (the_channel w) (timeout_handler tm0) wc)
      as (Hwf' & Htm' & _ & Hall'); [done | | done | done|].
    + subst wc. unfold exec, clearTimeout, modify. simpl. rewrite Htm0. simpl.
      by rewrite Nat.eqb_refl.
    + split; [done|]. split; [|done]. exact Htm'.
  - apply pending_timer_nonempty in Hp. by rewrite Htv in Hp.
Qed.

Lemma quiet_settle i settled w :
  quiet_inv w -> quiet_inv (exec (step (Settle i settled)) w).
Proof.
  intros Hinv. destruct (awaiting w !! i) as [act|] eqn:Ha.
  - rewrite (settle_eq _ _ _ _ Ha).
    unfold exec, resume_sendBufferedMessages, try_catch.
    destruct settled as [[]|e]; simpl.
    + by apply (quiet_inv_ext w).
    + pose proof (catch_block_same_core (act_channel act) (act_list act)
                    (with_awaiting (delete i) w)) as Hc.
      destruct (catch_block _ _ _) as [c w3]. simpl in *.
      destruct Hc as (Hh & Ht & Htm & _ & Hi & _).
      by apply (quiet_inv_ext w).
  - unfold exec, step, bind, gets. by rewrite Ha.
Qed.

Lemma quiet_run evs : forall w,
  forallb quiet evs = true -> quiet_inv w -> quiet_inv (run evs w).
Proof.
  induction evs as [|ev evs IH]; intros w Hq Hinv; [done|].
  simpl in Hq. apply andb_prop in Hq as [Hq1 Hq2].
  change (run (ev :: evs) w) with (run evs (exec (step ev) w)).
  apply IH; [done|].
  destruct ev as [channel msg h|t|i settled].
  - by apply quiet_deliver.
  - by apply quiet_fire.
  - by apply quiet_settle.
Qed.



(** ** The byte total handed to the handler *)

Lemma totals_ok_ext w w' : invocations w' = invocations w -> totals_ok w -> totals_ok w'.
Proof. unfold totals_ok. by intros ->. Qed.

Lemma at_handler_totals channel w :
  store_ok w -> totals_ok w -> totals_ok (at_handler channel w).
Proof.
  intros Hst Hk. unfold totals_ok. rewrite at_handler_invocations.
  apply Forall_app. split; [done|]. by apply Forall_singleton.
Qed.

Lemma same_core_inv w w' : same_core w w' -> inv w -> inv w'.
Proof. intros Hc. by apply store_same_sound, same_core_store_same. Qed.

Lemma spawn_normal {A} (m : M A) w : normal m -> snd (spawn m w) = snd (m w).
Proof.
  intros Hn. unfold spawn. destruct (Hn w) as [a Ha].
  by destruct (m w) as [[a'|e] w1].
Qed.

Lemma buffered_inv channel msg w : inv w -> inv (buffered channel msg w).
Proof.
  intros Hi.
  destruct (set_amqpChannel_sound channel w) as [_ H1].
  destruct (addMessage_sound msg (with_this (set_amqpChannel (Some channel)) w))
    as [_ H2].
  rewrite addMessage_eq in H2. by apply H2, H1.
Qed.

Section Totals.

Variable call : ChannelWrapper -> ConsumeBatchMessages -> M unit.

Hypothesis call_sound : forall channel w, sound (call channel (flushed_batch channel w)).

Hypothesis call_totals : forall channel w0 w,
  inv w -> totals_ok w -> totals_ok (snd (call channel (flushed_batch channel w0) w)).

Lemma sendBufferedMessages_with_totals channel w :
  inv w -> totals_ok w -> totals_ok (snd (sendBufferedMessages_with call channel w)).
Proof using call_sound call_totals.
  intros Hi Hk. rewrite sendBufferedMessages_with_eq.
  destruct (at_handler_sound channel w) as [_ Hia].
  pose proof (at_handler_totals channel w (inv_store _ Hi) Hk) as Hka.
  pose proof (call_totals channel w (at_handler channel w) (Hia Hi) Hka) as Hk2.
  destruct (call _ _ _) as [[[]|e] w2]; simpl snd in *.
  - by apply (totals_ok_ext w2).
  - unfold bind.
    pose proof (catch_block_same_core channel (unackedMessageList (this w)) w2) as Hc.
    destruct (catch_block _ _ _) as [[[]|e'] w3]; simpl in *;
      destruct Hc as (_ & _ & _ & _ & Hinv & _); by apply (totals_ok_ext w2).
Qed.

Lemma handleMessageBuffering_with_totals h channel msg w :
  inv w -> totals_ok w ->
  totals_ok (snd (handleMessageBuffering_with call h channel msg w)).
Proof using call_sound call_totals.
  intros Hi Hk. rewrite handleMessageBuffering_with_eq. cbv zeta.
  pose proof (buffered_inv channel msg w Hi) as Hib.
  assert (Hkb : totals_ok (buffered channel msg w)) by (by apply (totals_ok_ext w)).
  set (wb := buffered channel msg w) in *.
  destruct (size_reached wb _).
  - destruct (store_same_sound _ _ (cancel_timer_store_same wb)) as [_ Hic].
    apply sendBufferedMessages_with_totals; [by apply Hic|].
    apply (totals_ok_ext wb); [|done].
    by destruct (cancel_timer_store_same wb) as (_ & _ & _ & _ & -> & _).
  - destruct (truthy _); [|done]. simpl.
    apply (totals_ok_ext wb); [|done].
    by destruct (arm_timer_store_same h wb) as (_ & _ & _ & _ & -> & _).
Qed.

End Totals.

Lemma call_handler_totals h : forall channel messages,
  (forall w, same_core w (snd (ackAll messages w))) ->
  (forall requeue w, same_core w (snd (nackAll messages requeue w))) ->
  forall w, inv w -> totals_ok w ->
    totals_ok (snd (call_handler h channel messages w)).
Proof.
  induction h as [|e|k IHk|requeue k IHk|msg h' IHh' k IHk];
    intros channel messages Hack Hnack w Hi Hk; simpl.
  - done.
  - done.
  - unfold bind. pose proof (Hack w) as Hw.
    destruct (ackAll messages w) as [[[]|e] w1]; simpl in *.
    + apply IHk; [done | done | |].
      * by apply (same_core_inv w).
      * destruct Hw as (_ & _ & _ & _ & Hinv & _). by apply (totals_ok_ext w).
    + destruct Hw as (_ & _ & _ & _ & Hinv & _). by apply (totals_ok_ext w).
  - unfold bind. pose proof (Hnack requeue w) as Hw.
    destruct (nackAll messages requeue w) as [[[]|e] w1]; simpl in *.
    + apply IHk; [done | done | |].
      * by apply (same_core_inv w).
      * destruct Hw as (_ & _ & _ & _ & Hinv & _). by apply (totals_ok_ext w).
    + destruct Hw as (_ & _ & _ & _ & Hinv & _). by apply (totals_ok_ext w).
  - assert (Hs : forall c w0, sound (call_handler h' c (flushed_batch c w0)))
      by (intros; apply call_handler_flushed_sound).
    assert (Hq : forall c w0 w1, inv w1 -> totals_ok w1 ->
              totals_ok (snd (call_handler h' c (flushed_batch c w0) w1))).
    { intros c w0 w1. apply IHh'; simpl.
      - intros w2. by destruct (ackMessageList_spec c (unackedMessageList (this w0)) w2)
          as (w' & -> & ? & _).
      - intros rq w2.
        by destruct (nackMessageList_spec c (unackedMessageList (this w0)) rq w2)
          as (w' & -> & ? & _). }
    unfold bind at 1.
    pose proof (spawn_normal _ w
      (handleMessageBuffering_with_normal (call_handler h') h' channel msg)) as Hsp.
    pose proof (handleMessageBuffering_with_totals _ Hs Hq h' channel msg w Hi Hk) as Hk1.
    destruct (handleMessageBuffering_with_sound _ Hs h' channel msg w) as [_ Hi1].
    rewrite <- Hsp in Hk1, Hi1.
    destruct (spawn _ w) as [[[]|e] w1]; simpl in *; [|done].
    apply IHk; auto.
Qed.

Lemma flushed_batch_totals h channel w0 w :
  inv w -> totals_ok w ->
  totals_ok (snd (call_handler h channel (flushed_batch channel w0) w)).
Proof.
  apply call_handler_totals; simpl.
  - intros w2. by destruct (ackMessageList_spec channel (unackedMessageList (this w0)) w2)
      as (w' & -> & ? & _).
  - intros rq w2.
    by destruct (nackMessageList_spec channel (unackedMessageList (this w0)) rq w2)
      as (w' & -> & ? & _).
Qed.

Lemma step_totals ev w : inv w -> totals_ok w -> totals_ok (exec (step ev) w).
Proof.
  intros Hi Hk. destruct ev as [channel msg h|t|i settled].
  - rewrite deliver_eq. unfold handleMessageBuffering.
    apply handleMessageBuffering_with_totals; [|intros; by apply flushed_batch_totals|done|done].
    intros. apply call_handler_flushed_sound.
  - destruct (pending_timer t w) as [tm|] eqn:Hp; [|by rewrite fire_not_pending].
    rewrite (fire_eq t tm w Hp).
    apply (totals_ok_ext
      (exec (sendBufferedMessages (the_channel w) (timeout_handler tm))
         (exec (clearTimeout t) w))); [done|].
    unfold exec at 1, sendBufferedMessages.
    apply sendBufferedMessages_with_totals;
      [intros; apply call_handler_flushed_sound
      |intros; by apply flushed_batch_totals | |].
    + by apply (clearTimeout_sound t w).
    + by apply (totals_ok_ext w).
  - destruct (awaiting w !! i) as [act|] eqn:Ha.
    + rewrite (settle_eq _ _ _ _ Ha).
      unfold exec, resume_sendBufferedMessages, try_catch.
      destruct settled as [[]|e]; simpl; [by apply (totals_ok_ext w)|].
      pose proof (catch_block_same_core (act_channel act) (act_list act)
                    (with_awaiting (delete i) w)) as Hc.
      destruct (catch_block _ _ _) as [c w3]. simpl in *.
      destruct Hc as (_ & _ & _ & _ & Hinv & _). by apply (totals_ok_ext w).
    + unfold exec, step, bind, gets. by rewrite Ha.
Qed.


(** ** The channel at the time a timer fires *)

(** X10: In every world reached from a new manager, whatever the handlers
    do, a timer that is pending finds [amqpChannel] set: the callback's
    [this.amqpChannel!] is a channel, and the flush of the callback runs on
    it with the handler the timer was armed with, after which the handle is
    cleared. *)
Theorem X10_channel_is_set_when_a_timer_fires (cfg : IMessageBatchingManagerConfig)
    (evs : list Event) (t : nat) (tm : Timeout) :
  let w := run evs (constructor cfg) in
  pending_timer t w = Some tm ->
  exists c,
    amqpChannel (this w) = Some c /\
    exec (step (Fire t)) w =
      with_this (set_timerHandle None)
        (exec (sendBufferedMessages c (timeout_handler tm))
           (exec (clearTimeout t) w)).
Proof.
  cbv zeta. intros Hp.
  exists (the_channel (run evs (constructor cfg))).
  split; [by apply (the_channel_recorded cfg evs t tm) | by apply fire_eq].
Qed.

(** A message arrives on channel 7 under a time limit; the timer it armed
    finds channel 7. *)
Lemma X10_channel_is_set_when_a_timer_fires_witness :
  let w := run [Deliver 7%nat (message 1 4) HReturn]
               (constructor (sample_config None (Some 50) None)) in
  exists c, amqpChannel (this w) = Some c.
Proof.
  cbv zeta.
  destruct (X10_channel_is_set_when_a_timer_fires
              (sample_config None (Some 50) None)
              [Deliver 7%nat (message 1 4) HReturn] 0%nat
              {| timeout_ms := 50; timeout_handler := HReturn |} eq_refl)
    as (c & Hc & _).
  by exists c.
Defined.

(** ** Nothing lost, nothing twice, order kept *)

Lemma handed_store_same w w' : store_same w w' -> handed w' = handed w.
Proof.
  intros Hs. unfold handed.
  pose proof (store_same_array (unackedMessageList (this w)) _ _ Hs) as Ha.
  destruct Hs as (_ & Hl & _ & _ & Hi & _). by rewrite Hi, Hl, Ha.
Qed.

Lemma quiet_flush_handed channel h w :
  no_reentry h = true ->
  let w' := snd (sendBufferedMessages channel h w) in
  wf w' /\ handed w' = handed w.
Proof.
  intros Hno. cbv zeta.
  pose proof (flush_quiet channel h w Hno) as Hq.
  split; [exact (store_same_wf _ _ Hq (at_handler_wf channel w))|].
  rewrite (handed_store_same _ _ Hq). unfold handed.
  destruct (at_handler_store channel w) as [Hc _].
  unfold getMessageCount in Hc. apply length_zero_iff_nil in Hc. rewrite Hc.
  rewrite at_handler_invocations, map_app, concat_app. simpl.
  by rewrite !app_nil_r.
Qed.

Lemma quiet_step_handed ev w :
  quiet ev = true -> quiet_inv w ->
  handed (exec (step ev) w) = handed w ++ delivered [ev].
Proof.
  intros Hq (Hwf & Htv & _). destruct ev as [channel msg h|t|i settled]; simpl in Hq.
  - change (delivered [Deliver channel msg h]) with [msg].
    destruct (buffered_facts channel msg w Hwf) as (Hwfb & Hlb & Hab & _ & _ & Hib).
    set (wb := buffered channel msg w) in *.
    assert (Hb : handed wb = handed w ++ [msg]).
    { unfold handed. by rewrite Hib, Hlb, Hab, app_assoc. }
    destruct (size_reached wb (bufferSize (this wb))) eqn:Hs.
    + rewrite deliver_flush by exact Hs. fold wb.
      destruct (quiet_flush_handed channel h (cancel_timer wb) Hq) as [_ Hh'].
      unfold exec. by rewrite Hh', (handed_store_same _ _ (cancel_timer_store_same wb)).
    + rewrite deliver_no_flush by exact Hs. fold wb.
      destruct (truthy _); [|done].
      by rewrite (handed_store_same _ _ (arm_timer_store_same h wb)).
  - change (delivered [Fire t]) with (@nil ConsumeMessage). rewrite app_nil_r.
    destruct (pending_timer t w) as [tm|] eqn:Hp; [|by rewrite fire_not_pending].
    rewrite (fire_eq t tm w Hp).
    assert (Hno : no_reentry (timeout_handler tm) = true).
    { unfold timer_inv in Htv. unfold pending_timer in Hp.
      destruct (timerHandle (this w)) as [t0|].
      - destruct Htv as (tm0 & Htm0 & Hq0 & _). rewrite Htm0 in Hp. simpl in Hp.
        destruct (Nat.eqb t0 t); [|done]. by injection Hp as <-.
      - by rewrite Htv in Hp. }
    destruct (quiet_flush_handed (the_channel w) (timeout_handler tm)
                (exec (clearTimeout t) w) Hno) as [_ Hh'].
    change (handed (with_this (set_timerHandle None) ?x)) with (handed x).
    unfold exec at 1. by rewrite Hh'.
  - change (delivered [Settle i settled]) with (@nil ConsumeMessage).
    rewrite app_nil_r.
    destruct (awaiting w !! i) as [act|] eqn:Ha.
    + rewrite (settle_eq _ _ _ _ Ha).
      unfold exec, resume_sendBufferedMessages, try_catch.
      destruct settled as [[]|e]; [done|]. unfold throw.
      pose proof (catch_block_same_core (act_channel act) (act_list act)
                    (with_awaiting (delete i) w)) as Hc.
      destruct (catch_block _ _ _) as [c w3]. cbn [snd] in *.
      by rewrite (handed_store_same _ _ (same_core_store_same _ _ Hc)).
    + unfold exec, step, bind, gets. by rewrite Ha.
Qed.

Lemma delivered_app evs1 evs2 :
  delivered (evs1 ++ evs2) = delivered evs1 ++ delivered evs2.
Proof.
  induction evs1 as [|[channel msg h|t|i settled] evs1 IH]; simpl; [done | |done|done].
  by rewrite IH.
Qed.

Lemma quiet_run_handed evs : forall w,
  forallb quiet evs = true -> quiet_inv w ->
  handed (run evs w) = handed w ++ delivered evs.
Proof.
  induction evs as [|ev evs IH]; intros w Hq Hinv.
  - simpl. by rewrite app_nil_r.
  - simpl in Hq. apply andb_prop in Hq as [Hq1 Hq2].
    change (run (ev :: evs) w) with (run evs (exec (step ev) w)).
    rewrite IH; [|done|].
    + rewrite (quiet_step_handed ev w Hq1 Hinv), <- app_assoc.
      by rewrite <- delivered_app.
    + destruct ev as [channel msg h|t|i settled].
      * by apply quiet_deliver.
      * by apply quiet_fire.
      * by apply quiet_settle.
Qed.



(** ** The store, operation after operation *)

(** X12: Messages added one by one and then detached come back as they went
    in: [finalizeMessages] returns the list the manager had, now holding what
    it held followed by the added messages in order, and the byte counter
    increased by their sum.  A second [finalizeMessages] right after returns
    another list, which is empty, with a byte total of 0, and leaves the
    first list as it was: two detachments never return the same list. *)
Theorem X12_add_then_detach (w : World) (msgs : list ConsumeMessage) :
  wf w ->
  let w1 := exec (for_of msgs addMessage) w in
  exists r2 w2 w3,
    finalizeMessages w1 =
      (Normal (bufferSize (this w) + total msgs, unackedMessageList (this w)), w2) /\
    finalizeMessages w2 = (Normal (0, r2), w3) /\
    r2 <> unackedMessageList (this w) /\
    array r2 w3 = [] /\
    array (unackedMessageList (this w)) w2 =
      array (unackedMessageList (this w)) w ++ msgs /\
    array (unackedMessageList (this w)) w3 =
      array (unackedMessageList (this w)) w ++ msgs.
Proof.
  intros Hwf. cbv zeta.
  destruct (addMessage_run msgs w Hwf) as (Hwf1 & Hl & Ha & Hb).
  set (w1 := exec (for_of msgs addMessage) w) in *.
  rewrite finalizeMessages_eq, resetMessages_eq. simpl snd.
  set (w2 := with_this (set_bufferSize 0) _).
  exists (length (heap w1)), w2. eexists.
  split; [by rewrite Hb, Hl|].
  rewrite finalizeMessages_eq, resetMessages_eq. simpl snd.
  split; [reflexivity|].
  assert (Ha2 : array (unackedMessageList (this w)) w2 =
                array (unackedMessageList (this w)) w ++ msgs).
  { subst w2. change (array ?r (with_this _ (with_this _ ?x))) with (array r x).
    by rewrite array_new. }
  split; [|split; [|split; [exact Ha2|]]].
  - unfold wf in Hwf1. rewrite Hl in Hwf1. lia.
  - change (array ?r (with_this _ (with_this _ ?x))) with (array r x).
    rewrite array_new. subst w2.
    change (array ?r (with_this _ (with_this _ ?x))) with (array r x).
    apply array_new_here.
  - change (array ?r (with_this _ (with_this _ ?x))) with (array r x).
    by rewrite array_new.
Qed.

(** Two messages added to a new manager and detached: the first detachment
    returns a list of 7 bytes, the second an empty one. *)
Lemma X12_add_then_detach_witness :
  let w1 := exec (for_of [message 1 4; message 2 3] addMessage)
              (constructor (sample_config None None None)) in
  exists r2 w2 w3,
    finalizeMessages w1 = (Normal (7, 1%nat), w2) /\
    finalizeMessages w2 = (Normal (0, r2), w3) /\
    r2 <> 1%nat /\
    array 1%nat w3 = [message 1 4; message 2 3].
Proof.
  cbv zeta.
  assert (Hwf : wf (constructor (sample_config None None None)))
    by (unfold wf; simpl; lia).
  destruct (X12_add_then_detach (constructor (sample_config None None None))
              [message 1 4; message 2 3] Hwf)
    as (r2 & w2 & w3 & H1 & H2 & H3 & _ & _ & H6).
  exists r2, w2, w3. split; [exact H1|]. split; [exact H2|].
  split; [exact H3 | exact H6].
Defined.
